(** * Resume-Scanner backend: a shallow embedding of [server.js]

    The development follows the layout of the source file:
    - JavaScript strings and primitive values as the program uses them;
    - the backtracking regular-expression matcher behind [String.prototype.match]
      for the three patterns of the source;
    - [extractPdfData], [compareWithLLM] and the [startProcessing] handler,
      written in a small state/exception/trace monad over an arbitrary
      outside world (network, PDF parser, language-model backend);
    - the properties of the specification, proved about these definitions. *)

From Stdlib Require Import ZArith NArith Ascii String DecimalString.
From stdpp Require Import base tactics option list gmap.

Local Open Scope Z_scope.

(** ** JavaScript strings *)

(** A JavaScript string is a sequence of UTF-16 code units. *)
Abbreviation jsstring := (list N).

(** Source literals are ASCII; [lit] turns one into its code units. *)
Definition lit (s : string) : jsstring :=
  (λ a, N_of_ascii a) <$> list_ascii_of_string s.

(** [WhiteSpace] and [LineTerminator] code units of ECMAScript: the set that
    [\s] matches and that [trim] and [parseInt] strip. *)
Definition is_line_terminator (c : N) : bool :=
  ((c =? 10) || (c =? 13) || (c =? 8232) || (c =? 8233))%N.

Definition is_ws (c : N) : bool :=
  ((c =? 9) || (c =? 11) || (c =? 12) || (c =? 32) || (c =? 160)
   || (c =? 5760) || ((8192 <=? c) && (c <=? 8202)) || (c =? 8239)
   || (c =? 8287) || (c =? 12288) || (c =? 65279))%N
  || is_line_terminator c.

(** [\d] *)
Definition is_digit (c : N) : bool := ((48 <=? c) && (c <=? 57))%N.

(** [.] without the [s] flag *)
Definition is_dot (c : N) : bool := negb (is_line_terminator c).

(** [[a-zA-Z0-9_-]] *)
Definition is_id_char (c : N) : bool :=
  (((97 <=? c) && (c <=? 122)) || ((65 <=? c) && (c <=? 90))
   || ((48 <=? c) && (c <=? 57)) || (c =? 95) || (c =? 45))%N.

Fixpoint drop_while (p : N → bool) (s : jsstring) : jsstring :=
  match s with
  | c :: s' => if p c then drop_while p s' else s
  | [] => []
  end.

Fixpoint take_while (p : N → bool) (s : jsstring) : jsstring :=
  match s with
  | c :: s' => if p c then c :: take_while p s' else []
  | [] => []
  end.

(** [String.prototype.trim] *)
Definition trimStart (s : jsstring) : jsstring := drop_while is_ws s.
Definition trimEnd (s : jsstring) : jsstring := reverse (drop_while is_ws (reverse s)).
Definition trim (s : jsstring) : jsstring := trimEnd (trimStart s).

(** [String.prototype.substring(0, n)] *)
Definition substring0 (n : Z) (s : jsstring) : jsstring := take (Z.to_nat n) s.

(** Numbers print in decimal; the model keeps to integer-valued numbers. *)
Definition nat_to_jsstring (n : nat) : jsstring :=
  lit (NilEmpty.string_of_uint (Nat.to_uint n)).

Definition Z_to_jsstring (z : Z) : jsstring :=
  match z with
  | Zneg p => lit "-" ++ nat_to_jsstring (Pos.to_nat p)
  | _ => nat_to_jsstring (Z.to_nat z)
  end.

(** [parseInt(s, 10)]: leading white space is skipped, a sign is accepted,
    then the longest run of decimal digits is read; [None] stands for [NaN].
    The source compares the result with [0] and [10] only; the rounding of
    very long digit runs to a double never moves a value across these
    bounds, so the exact integer is kept. *)
Definition digits_value (ds : jsstring) : Z :=
  fold_left (λ acc c, 10 * acc + (Z.of_N c - 48)) ds 0.

Definition parseInt10 (s : jsstring) : option Z :=
  let s1 := trimStart s in
  let '(neg, s2) :=
    match s1 with
    | c :: r => if (c =? 45)%N then (true, r)
                else if (c =? 43)%N then (false, r) else (false, s1)
    | [] => (false, s1)
    end in
  match take_while is_digit s2 with
  | [] => None
  | ds => Some (if neg : bool then - digits_value ds else digits_value ds)
  end.

(** ** Regular expressions *)

(** The fragment of the pattern language that the three patterns of the
    source use.  Quantifiers are greedy and only ever apply to a character
    class; every pattern has exactly one capturing group. *)
Module Regex.

Inductive regex : Type :=
| Lit (l : jsstring)
| Seq (r1 r2 : regex)
| Alt (r1 r2 : regex)
| Opt (r : regex)
| Star (p : N → bool)
| Plus (p : N → bool)
| Group (r : regex).

(** [Canonicalize] of a code unit under the [i] flag (without [u]).  A code
    unit of 128 or more is never mapped below 128, so against the ASCII
    literals of the source only the ASCII letters fold. *)
Definition canonicalize (c : N) : N :=
  if ((97 <=? c) && (c <=? 122))%N then (c - 32)%N else c.

Definition char_eq (ignoreCase : bool) (a c : N) : bool :=
  if ignoreCase then (canonicalize a =? canonicalize c)%N else (a =? c)%N.

(** The rest of [s] after the literal [l], if [s] starts with it. *)
Fixpoint lit_k (ignoreCase : bool) (l s : jsstring) : option jsstring :=
  match l, s with
  | [], _ => Some s
  | a :: l', c :: s' => if char_eq ignoreCase a c then lit_k ignoreCase l' s' else None
  | _ :: _, [] => None
  end.

(** Greedy iteration of a class: the longest run first, shorter ones on
    backtracking. *)
Fixpoint star_k {R} (p : N → bool) (s : jsstring) (k : jsstring → option R) : option R :=
  match s with
  | c :: s' =>
      if p c then
        match star_k p s' k with
        | Some x => Some x
        | None => k s
        end
      else k s
  | [] => k []
  end.

(** The backtracking matcher in continuation-passing style: [k] receives
    the rest of the input and the current value of capture 1. *)
Fixpoint rmatch {R} (ignoreCase : bool) (r : regex) (s : jsstring)
    (cap : option jsstring) (k : jsstring → option jsstring → option R) : option R :=
  match r with
  | Lit l =>
      match lit_k ignoreCase l s with
      | Some s' => k s' cap
      | None => None
      end
  | Seq r1 r2 =>
      rmatch ignoreCase r1 s cap (λ s' cap', rmatch ignoreCase r2 s' cap' k)
  | Alt r1 r2 =>
      match rmatch ignoreCase r1 s cap k with
      | Some x => Some x
      | None => rmatch ignoreCase r2 s cap k
      end
  | Opt r' =>
      match rmatch ignoreCase r' s cap k with
      | Some x => Some x
      | None => k s cap
      end
  | Star p => star_k p s (λ s', k s' cap)
  | Plus p =>
      match s with
      | c :: s' => if p c then star_k p s' (λ s'', k s'' cap) else None
      | [] => None
      end
  | Group r' =>
      rmatch ignoreCase r' s cap
        (λ s' _, k s' (Some (take (length s - length s') s)))
  end.

(** A match anchored at the start of [s]; the result is capture 1. *)
Definition match_here (ignoreCase : bool) (r : regex) (s : jsstring)
  : option (option jsstring) :=
  rmatch ignoreCase r s None (λ _ cap, Some cap).

(** [RegExp.prototype.exec] on a pattern without the [g] flag: the first
    start index, from the left, at which the pattern matches. *)
Fixpoint exec (ignoreCase : bool) (r : regex) (s : jsstring)
  : option (option jsstring) :=
  match match_here ignoreCase r s with
  | Some m => Some m
  | None =>
      match s with
      | [] => None
      | _ :: s' => exec ignoreCase r s'
      end
  end.

End Regex.

Import Regex.

Infix "⋅" := Seq (at level 41, right associativity).

(** [/(?:https?:\/\/(?:www\.)?drive\.google\.com\/(?:file\/d\/|open\?id=))([a-zA-Z0-9_-]+)/];
    [shareUrlHead] is its non-capturing group. *)
Definition shareUrlHead : regex :=
  Lit (lit "http") ⋅ Opt (Lit (lit "s")) ⋅ Lit (lit "://")
  ⋅ Opt (Lit (lit "www.")) ⋅ Lit (lit "drive.google.com/")
  ⋅ Alt (Lit (lit "file/d/")) (Lit (lit "open?id=")).

Definition googleDriveRegex : regex := shareUrlHead ⋅ Group (Plus is_id_char).

(** [/(?:Numeric )?Rating:\s*\*?(\d+)(?:\/\d+)?/i] *)
Definition ratingRegex : regex :=
  Opt (Lit (lit "Numeric ")) ⋅ Lit (lit "Rating:") ⋅ Star is_ws
  ⋅ Opt (Lit (lit "*")) ⋅ Group (Plus is_digit)
  ⋅ Opt (Lit (lit "/") ⋅ Plus is_digit).

(** The summary pattern, flag [i]: the label [Summarized Report] or [Summary],
    a colon, [\s*], and capture 1, the greedy run of [.] that follows. *)
Definition summaryRegex : regex :=
  Alt (Lit (lit "Summarized Report")) (Lit (lit "Summary")) ⋅ Lit (lit ":")
  ⋅ Star is_ws ⋅ Group (Star is_dot).

(** ** Values and inputs *)

(** The primitive values a field of a submitted record can hold.  Numbers
    are kept to the safe integers, of magnitude below 2^53, which print in
    plain decimal: [VNum z] stands for a number of the source for such [z]
    only.  Arrays and objects are outside the model. *)
Inductive value : Type :=
| VUndefined
| VNull
| VBool (b : bool)
| VNum (z : Z)
| VStr (s : jsstring).

Global Instance value_eq_dec : EqDecision value.
Proof. solve_decision. Defined.

(** [ToBoolean] *)
Definition truthy (v : value) : bool :=
  match v with
  | VUndefined | VNull => false
  | VBool b => b
  | VNum z => negb (z =? 0)
  | VStr s => negb (bool_decide (s = []))
  end.

(** [ToString], as applied to the holes of a template literal *)
Definition to_jsstring (v : value) : jsstring :=
  match v with
  | VUndefined => lit "undefined"
  | VNull => lit "null"
  | VBool true => lit "true"
  | VBool false => lit "false"
  | VNum z => Z_to_jsstring z
  | VStr s => s
  end.

(** [a || b] *)
Definition or_else (a b : value) : value := if truthy a then a else b.

(** One element of [csvData]: a record with named fields, or no object at all. *)
Inductive rowval : Type :=
| RowUndefined
| RowNull
| RowObject (fields : gmap jsstring value).

(** The [csvData] member of the [startProcessing] payload: an array, or
    missing.  The payload itself is an object, so that the handler's
    parameter pattern binds [csvData] and [txtData]. *)
Inductive batch : Type :=
| BatchUndefined
| BatchNull
| BatchArray (rows : list rowval).

(** Exceptions: those the interpreter raises on a bad property access or
    call (with the wording of Node's engine), and those thrown by the
    libraries behind the outside world.  [message] is the [message]
    property of the error object. *)
Inductive exn : Type :=
| TypeError (msg : jsstring)
| LibraryError (msg : jsstring).

Definition message (e : exn) : jsstring :=
  match e with TypeError m | LibraryError m => m end.

Definition cannot_read (base : string) (prop : string) : exn :=
  TypeError (lit "Cannot read properties of " ++ lit base ++ lit " (reading '"
             ++ lit prop ++ lit "')").

(** ** The outside world *)

(** [fetch]: the promise rejects (network error, time-out), or a response
    arrives whose [ok] flag is given and whose [arrayBuffer()] yields bytes
    or rejects. *)
Inductive fetch_outcome : Type :=
| FetchRejects (e : exn)
| FetchResponse (ok : bool) (arrayBuffer : exn + list Byte.byte).

(** [pdfParse]: throws, or returns data whose [text] is a string. *)
Inductive parse_outcome : Type :=
| ParseThrows (e : exn)
| ParseData (text : jsstring).

(** [model.generateContent] followed by [response.text()]: throws, or the
    raw text of the backend. *)
Inductive generate_outcome : Type :=
| GenerateThrows (e : exn)
| GenerateText (text : jsstring).

(** The world answers each call from its own state, so two calls with the
    same argument may be answered differently. *)
Record world (W : Type) : Type := World {
  net_fetch : jsstring → W → fetch_outcome * W;
  pdf_parse : list Byte.byte → W → parse_outcome * W;
  llm_generate : jsstring → W → generate_outcome * W
}.
Arguments World {W} _ _ _.
Arguments net_fetch {W} _ _ _.
Arguments pdf_parse {W} _ _ _.
Arguments llm_generate {W} _ _ _.

(** What the handler sends on the socket. *)
Inductive emitted : Type :=
| processingUpdate (status : option jsstring) (report : jsstring)
| processingComplete (finalData : list (gmap jsstring value)) (report : jsstring)
| processingError (msg : jsstring) (error : jsstring).

(** The observable trace of a job: calls to the outside and socket events.
    Console output is not part of the model. *)
Inductive event : Type :=
| EvFetch (url : jsstring)
| EvPdfParse (buffer : list Byte.byte)
| EvGenerate (prompt : jsstring)
| EvEmit (e : emitted).

(** The handler's local variables, lines 218-220 of the source. *)
Record locals : Type := Locals {
  processedResumes : list (gmap jsstring value);
  successfulExtractions : nat;
  successfulLLMCalls : nat
}.

(** The return value of [extractPdfData]; [None] is [null]. *)
Record content : Type := Content { text : option jsstring }.

(** The return value of [compareWithLLM]. *)
Record ScoreResult : Type := Score { rating : Z; summary : jsstring }.

(** The client of the scoring backend built at start-up. *)
Record generative_model : Type := GenerativeModel {
  apiKey : jsstring;
  modelName : jsstring
}.

Inductive outcome (A : Type) : Type :=
| Normal (a : A)
| Throws (e : exn).
Arguments Normal {A} a.
Arguments Throws {A} e.

(** ** Start-up, lines 20-31 *)



(** ** Link resolution, lines 43-59 *)

Definition direct_download (fileId : jsstring) : jsstring :=
  lit "https://drive.google.com/uc?export=download&id=" ++ fileId.

(** [match && match[1]] selects a match whose capture 1 is a non-empty string. *)
Definition effectiveResumeLink (resume_link : jsstring) : jsstring :=
  match exec false googleDriveRegex resume_link with
  | Some (Some fileId) =>
      if bool_decide (fileId = []) then resume_link else direct_download fileId
  | Some None | None => resume_link
  end.

(** ** Reading the backend's response, lines 149-173 *)

Definition ratingMatch (text : jsstring) : option (option jsstring) :=
  exec true ratingRegex text.

Definition summaryMatch (text : jsstring) : option (option jsstring) :=
  exec true summaryRegex text.

(** The value of [rating] after lines 156-169. *)
Definition rating_of (text : jsstring) : Z :=
  match ratingMatch text with
  | Some (Some m1) =>
      if bool_decide (m1 = []) then 0
      else
        match parseInt10 m1 with
        | None => 0
        | Some r => if (r <? 0) || (r >? 10) then 0 else r
        end
  | Some None | None => 0
  end.

(** The value of [summary], lines 171-173; reading [trim] off a capture that
    did not take part in the match raises a [TypeError]. *)
Definition summary_of (text : jsstring) : outcome jsstring :=
  match summaryMatch text with
  | Some (Some m1) => Normal (trim m1)
  | Some None => Throws (cannot_read "undefined" "trim")
  | None => Normal (lit "Could not parse summary from LLM response.")
  end.

(** ** The prompt, lines 115-138 *)

Definition truncated (s : jsstring) : jsstring :=
  if 8000 <? Z.of_nat (length s)
  then substring0 8000 s ++ [10%N] ++ lit "... (truncated)"
  else s.

(** The second hole reads [jobDescription.length]: [null] and [undefined]
    have no properties, other non-strings have no [length] and are printed
    as they are. *)
Definition job_description_part (jobDescription : value) : outcome jsstring :=
  match jobDescription with
  | VUndefined => Throws (cannot_read "undefined" "length")
  | VNull => Throws (cannot_read "null" "length")
  | VStr s => Normal (truncated s)
  | v => Normal (to_jsstring v)
  end.

Definition nl_indent : jsstring := [10%N] ++ lit "            ".

Definition prompt_text (resume jobDescription : jsstring) : jsstring :=
  lit "Analyze the following resume content against the job description."
  ++ nl_indent
  ++ lit "Provide a numeric rating from 0 to 10 (where 0 is no match, 10 is perfect match) indicating how well the resume matches the job description."
  ++ nl_indent
  ++ lit "Also, provide a single-line summarized report explaining your rating."
  ++ nl_indent
  ++ lit "Output format:" ++ [34%N] ++ lit "Rating:1/10 Summary:lorem ipsum" ++ [34%N]
  ++ [10%N] ++ nl_indent
  ++ lit "Resume Content:" ++ nl_indent
  ++ resume
  ++ [10%N] ++ nl_indent
  ++ lit "Job Description:" ++ nl_indent
  ++ jobDescription
  ++ [10%N] ++ lit "        ".

(** ** The program monad *)

Section Program.

Context {W : Type} (env : world W).

(** State of the world, trace so far, and the handler's local variables. *)
Record state : Type := State {
  outside : W;
  trace : list event;
  vars : locals
}.

Definition M (A : Type) : Type := state → outcome A * state.

Definition ret {A} (a : A) : M A := λ σ, (Normal a, σ).

Definition bind {A B} (m : M A) (f : A → M B) : M B :=
  λ σ, match m σ with
       | (Normal a, σ') => f a σ'
       | (Throws e, σ') => (Throws e, σ')
       end.

Definition throw {A} (e : exn) : M A := λ σ, (Throws e, σ).

Definition lift {A} (o : outcome A) : M A := λ σ, (o, σ).

(** [try { m } catch (e) { h e }] *)
Definition try_catch {A} (m : M A) (h : exn → M A) : M A :=
  λ σ, match m σ with
       | (Normal a, σ') => (Normal a, σ')
       | (Throws e, σ') => h e σ'
       end.

Definition record (ev : event) (σ : state) : state :=
  State (outside σ) (trace σ ++ [ev]) (vars σ).

(** [socket.emit] *)
Definition emit (e : emitted) : M unit := λ σ, (Normal tt, record (EvEmit e) σ).

Definition get_vars : M locals := λ σ, (Normal (vars σ), σ).

Definition set_vars (f : locals → locals) : M unit :=
  λ σ, (Normal tt, State (outside σ) (trace σ) (f (vars σ))).

(** [await fetch(url, {timeout: 10000})] *)
Definition fetch (url : jsstring) : M (bool * (exn + list Byte.byte)) :=
  λ σ, let '(o, w) := net_fetch env url (outside σ) in
       let σ' := State w (trace σ ++ [EvFetch url]) (vars σ) in
       match o with
       | FetchRejects e => (Throws e, σ')
       | FetchResponse ok body => (Normal (ok, body), σ')
       end.

(** [await response.arrayBuffer()] *)
Definition arrayBuffer (body : exn + list Byte.byte) : M (list Byte.byte) :=
  match body with
  | inl e => throw e
  | inr b => ret b
  end.

(** [await pdfParse(pdfBuffer)], then [data.text] *)
Definition pdfParse (pdfBuffer : list Byte.byte) : M jsstring :=
  λ σ, let '(o, w) := pdf_parse env pdfBuffer (outside σ) in
       let σ' := State w (trace σ ++ [EvPdfParse pdfBuffer]) (vars σ) in
       match o with
       | ParseThrows e => (Throws e, σ')
       | ParseData t => (Normal t, σ')
       end.

(** [await model.generateContent(...)], then [response.text()] *)
Definition generateContent (prompt : jsstring) : M jsstring :=
  λ σ, let '(o, w) := llm_generate env prompt (outside σ) in
       let σ' := State w (trace σ ++ [EvGenerate prompt]) (vars σ) in
       match o with
       | GenerateThrows e => (Throws e, σ')
       | GenerateText t => (Normal t, σ')
       end.

End Program.

Arguments State {W} _ _ _.
Arguments outside {W} _.
Arguments trace {W} _.
Arguments vars {W} _.

Declare Scope prog_scope.
Delimit Scope prog_scope with prog.
Notation "'let*' x ':=' m 'in' k" := (bind m (λ x, k))
  (at level 10, x pattern, m at level 100, k at level 200) : prog_scope.
Notation "m '>>' k" := (bind m (λ _, k))
  (at level 100, k at level 200, right associativity) : prog_scope.

Section Handlers.

Context {W : Type} (env : world W).

Local Open Scope prog_scope.

(** ** [extractPdfData], lines 35-100 *)

(** [resume_link.match(googleDriveRegex)]: only a string has [match]. *)
Definition resolve (resume_link : value) : M (W:=W) jsstring :=
  match resume_link with
  | VStr link => ret (effectiveResumeLink link)
  | _ => throw (TypeError (lit "resume_link.match is not a function"))
  end.

Definition extractPdfData (resume_link : value) : M (W:=W) content :=
  if negb (truthy resume_link) then ret (Content None)
  else
    let* effective := resolve resume_link in
    let* pdfBuffer :=
      try_catch
        (let* response := fetch env effective in
         let '(ok, body) := response in
         if negb ok then ret None
         else let* buffer := arrayBuffer body in ret (Some buffer))
        (λ _, ret None) in
    match pdfBuffer with
    | None => ret (Content None)
    | Some buffer =>
        try_catch
          (let* extractedText := pdfParse env buffer in
           if negb (bool_decide (extractedText = []))
              && (0 <? length (trim extractedText))%nat
           then ret (Content (Some extractedText))
           else ret (Content None))
          (λ _, ret (Content None))
    end.

(** ** [compareWithLLM], lines 102-183 *)

(** The truth value of [resumeContent.text]. *)
Definition has_text (c : content) : bool :=
  match text c with
  | Some t => negb (bool_decide (t = []))
  | None => false
  end.

Definition compareWithLLM (model : option generative_model)
    (resumeContent : content) (jobDescription : value) : M (W:=W) ScoreResult :=
  match model with
  | None => ret (Score 0 (lit "LLM not configured."))
  | Some _ =>
      if negb (has_text resumeContent)
      then ret (Score 0 (lit "Missing resume content for LLM analysis."))
      else
        let* jd := lift (job_description_part jobDescription) in
        let prompt := prompt_text (truncated (default [] (text resumeContent))) jd in
        try_catch
          (let* response := generateContent env prompt in
           let rating := rating_of response in
           let* summary := lift (summary_of response) in
           ret (Score rating summary))
          (λ _, ret (Score 0 (lit "Failed to get LLM report due to API error.")))
  end.

(** ** The [startProcessing] handler, lines 210-317 *)

(** [row.prop] *)
Definition get_field (row : rowval) (prop : string) : M (W:=W) value :=
  match row with
  | RowObject fields => ret (default VUndefined (fields !! lit prop))
  | RowNull => throw (cannot_read "null" prop)
  | RowUndefined => throw (cannot_read "undefined" prop)
  end.

(** The own properties that [{...row}] copies. *)
Definition spread (row : rowval) : gmap jsstring value :=
  match row with
  | RowObject fields => fields
  | RowNull | RowUndefined => ∅
  end.

(** Lines 234-254: the value of [extractedContent]. *)
Definition acquisition (email resume_link : value) : M (W:=W) content :=
  if truthy resume_link then
    emit (processingUpdate None
            (lit "Extracting PDF from URL for " ++ to_jsstring email ++ lit "...")) >>
    let* extractedContent := extractPdfData resume_link in
    (if has_text extractedContent
     then set_vars (λ v, Locals (processedResumes v) (S (successfulExtractions v))
                                (successfulLLMCalls v))
     else ret tt) >>
    ret extractedContent
  else
    emit (processingUpdate None
            (lit "No PDF URL for " ++ to_jsstring email
             ++ lit ". Skipping PDF extraction.")) >>
    ret (Content None).

(** Line 268: does this report count as a run analysis? *)
Definition counted (llmReport : ScoreResult) : bool :=
  (rating llmReport >? 0)
  || negb (bool_decide (summary llmReport = lit "LLM not configured.")).

(** Lines 256-277: the values of [llmRating] and [llmSummary]. *)
Definition scoring (model : option generative_model) (email : value)
    (extractedContent : content) (txtData : value) : M (W:=W) (Z * jsstring) :=
  if has_text extractedContent then
    emit (processingUpdate None
            (lit "Analyzing resume " ++ to_jsstring email
             ++ lit " with Gemini LLM...")) >>
    let* llmReport := compareWithLLM model extractedContent txtData in
    (if counted llmReport
     then set_vars (λ v, Locals (processedResumes v) (successfulExtractions v)
                                (S (successfulLLMCalls v)))
     else ret tt) >>
    ret (rating llmReport, summary llmReport)
  else ret (0, lit "LLM analysis skipped due to no extracted PDF text.").

(** Lines 279-286 *)
Definition processedRow (row : rowval) (extractedContent : content)
    (llmRating : Z) (llmSummary : jsstring) : gmap jsstring value :=
  <[lit "Summary" := VStr llmSummary]>
    (<[lit "Rating" := VNum llmRating]>
       (<[lit "pdfExtractionStatus" :=
            VStr (if has_text extractedContent then lit "Success" else lit "Failed")]>
          (spread row))).

(** One turn of the loop, lines 224-291. *)
Definition loop_body (model : option generative_model) (csvLength : nat)
    (txtData : value) (i : nat) (row : rowval) : M (W:=W) unit :=
  let* row_email := get_field row "email" in
  let email := or_else row_email (VStr (lit "NoEmail_" ++ nat_to_jsstring i)) in
  let* resume_link := get_field row "resume_link" in
  emit (processingUpdate None
          (lit "Processing resume " ++ nat_to_jsstring (i + 1) ++ lit "/"
           ++ nat_to_jsstring csvLength ++ lit " (Email: " ++ to_jsstring email
           ++ lit ")...")) >>
  let* extractedContent := acquisition email resume_link in
  let* llm := scoring model email extractedContent txtData in
  set_vars (λ v, Locals (processedResumes v
                           ++ [processedRow row extractedContent llm.1 llm.2])
                        (successfulExtractions v) (successfulLLMCalls v)).

(** [for (let i = 0; i < csvData.length; i++)], from index [i] on. *)
Fixpoint for_rows (model : option generative_model) (csvLength : nat)
    (txtData : value) (i : nat) (rows : list rowval) : M (W:=W) unit :=
  match rows with
  | [] => ret tt
  | row :: rest =>
      loop_body model csvLength txtData i row >>
      for_rows model csvLength txtData (S i) rest
  end.

(** [csvData.length] and the elements the loop then visits. *)
Definition batch_rows (csvData : batch) : M (W:=W) (list rowval) :=
  match csvData with
  | BatchArray rows => ret rows
  | BatchNull => throw (cannot_read "null" "length")
  | BatchUndefined => throw (cannot_read "undefined" "length")
  end.

Definition closing_report (extractions llmCalls : nat) : jsstring :=
  lit "Successfully extracted text from " ++ nat_to_jsstring extractions
  ++ lit " PDFs and ran " ++ nat_to_jsstring llmCalls ++ lit " LLM analyses.".

(** The body of the [try] block, lines 223-305. *)
Definition orchestration (model : option generative_model)
    (csvData : batch) (txtData : value) : M (W:=W) unit :=
  let* rows := batch_rows csvData in
  for_rows model (length rows) txtData 0 rows >>
  emit (processingUpdate (Some (lit "converting to csv"))
          (lit "All resumes processed. Generating final CSV...")) >>
  let* v := get_vars in
  emit (processingComplete (processedResumes v)
          (closing_report (successfulExtractions v) (successfulLLMCalls v))).

Definition startProcessing (model : option generative_model)
    (csvData : batch) (txtData : value) : M (W:=W) unit :=
  emit (processingUpdate (Some (lit "analysing all resume"))
          (lit "Received data. Initializing analysis process...")) >>
  set_vars (λ _, Locals [] 0 0) >>
  try_catch
    (orchestration model csvData txtData)
    (λ error,
       emit (processingError
               (lit "An error occurred during backend processing. Check server logs.")
               (message error))).

(** A job: the handler run from an empty trace. *)
Definition run_job (model : option generative_model) (csvData : batch)
    (txtData : value) (w : W) : outcome unit * state (W:=W) :=
  startProcessing model csvData txtData (State w [] (Locals [] 0 0)).

End Handlers.

(** * Vocabulary of the properties *)

(** ** What the patterns match *)

(** [lit_eq ic l s]: [s] is the literal [l], up to case when [ic] is set. *)
Definition lit_eq (ignoreCase : bool) (l s : jsstring) : Prop :=
  Forall2 (λ a c, char_eq ignoreCase a c = true) l s.

(** [denotes ic r s c c']: the pattern [r] matches exactly the string [s],
    turning capture 1 from [c] into [c']. *)
Fixpoint denotes (ignoreCase : bool) (r : regex) (s : jsstring)
    (c c' : option jsstring) : Prop :=
  match r with
  | Lit l => lit_eq ignoreCase l s ∧ c' = c
  | Seq r1 r2 =>
      ∃ s1 s2 cm, s = s1 ++ s2 ∧ denotes ignoreCase r1 s1 c cm
                  ∧ denotes ignoreCase r2 s2 cm c'
  | Alt r1 r2 => denotes ignoreCase r1 s c c' ∨ denotes ignoreCase r2 s c c'
  | Opt r' => denotes ignoreCase r' s c c' ∨ (s = [] ∧ c' = c)
  | Star p => Forall (λ x, p x = true) s ∧ c' = c
  | Plus p => s ≠ [] ∧ Forall (λ x, p x = true) s ∧ c' = c
  | Group r' => ∃ cm, denotes ignoreCase r' s c cm ∧ c' = Some s
  end.

(** The forms of a cloud-drive share URL up to the file id. *)
Definition share_prefixes : list jsstring :=
  [ lit "https://drive.google.com/file/d/";
    lit "https://drive.google.com/open?id=";
    lit "https://www.drive.google.com/file/d/";
    lit "https://www.drive.google.com/open?id=";
    lit "http://drive.google.com/file/d/";
    lit "http://drive.google.com/open?id=";
    lit "http://www.drive.google.com/file/d/";
    lit "http://www.drive.google.com/open?id=" ].

(** The capture of a greedy, non-empty run of class [p] at the start of [s]. *)
Definition run1 (p : N → bool) (s : jsstring) : option (option jsstring) :=
  match s with
  | a :: _ => if p a then Some (Some (take_while p s)) else None
  | [] => None
  end.

(** [leftmost P text x]: the first place of [text], from the left, at which
    [P] holds of the remaining text, and [x] is what [P] finds there. *)
Definition leftmost (P : jsstring → jsstring → Prop) (text x : jsstring) : Prop :=
  ∃ pre s, text = pre ++ s ∧ P s x
           ∧ ∀ p1 s1 x1, text = p1 ++ s1 → P s1 x1 → (length pre ≤ length p1)%nat.

Definition somewhere (P : jsstring → jsstring → Prop) (text : jsstring) : Prop :=
  ∃ pre s x, text = pre ++ s ∧ P s x.

(** [share_link_at s fileId]: [s] starts with one of the share-link forms,
    followed by the non-empty run [fileId] of identifier characters. *)
Definition share_link_at (s fileId : jsstring) : Prop :=
  ∃ p rest, p ∈ share_prefixes ∧ s = p ++ rest
            ∧ fileId = take_while is_id_char rest ∧ fileId ≠ [].

(** [link] holds a share link; the leftmost one carries [fileId]. *)
Definition share_link (link fileId : jsstring) : Prop :=
  leftmost share_link_at link fileId.

Definition is_share_link (link : jsstring) : Prop :=
  somewhere share_link_at link.

(** [rating_place s ds]: [s] starts with the label [Rating:] in any letter
    case, possibly after [Numeric ], followed by white space, at most one
    asterisk, and the non-empty greedy run of digits [ds]. *)
Definition rating_place (s ds : jsstring) : Prop :=
  ∃ num lbl ws st rest,
    s = num ++ lbl ++ ws ++ st ++ rest
    ∧ (num = [] ∨ lit_eq true (lit "Numeric ") num)
    ∧ lit_eq true (lit "Rating:") lbl
    ∧ Forall (λ c, is_ws c = true) ws
    ∧ (st = [] ∨ st = lit "*")
    ∧ ds = take_while is_digit rest ∧ ds ≠ [].

(** The rating pattern up to its capture, and from its capture on. *)
Definition rating_head : regex :=
  Opt (Lit (lit "Numeric ")) ⋅ Lit (lit "Rating:") ⋅ Star is_ws
  ⋅ Opt (Lit (lit "*")).

Definition rating_tail : regex :=
  Group (Plus is_digit) ⋅ Opt (Lit (lit "/") ⋅ Plus is_digit).

Definition is_summary_label (lbl : jsstring) : Prop :=
  lit_eq true (lit "Summarized Report:") lbl ∨ lit_eq true (lit "Summary:") lbl.

(** [summary_place s cap]: [s] starts with a summary label; [cap] is what
    follows it, after any white space, up to the end of that line. *)
Definition summary_place (s cap : jsstring) : Prop :=
  ∃ lbl after, s = lbl ++ after ∧ is_summary_label lbl
               ∧ cap = take_while is_dot (drop_while is_ws after).

(** The summary pattern up to the colon, and after it. *)
Definition summary_head : regex :=
  Alt (Lit (lit "Summarized Report")) (Lit (lit "Summary")) ⋅ Lit (lit ":").

Definition summary_tail : regex := Star is_ws ⋅ Group (Star is_dot).

Definition has_rating_label (text : jsstring) : Prop :=
  ∃ pre lbl post, text = pre ++ lbl ++ post ∧ lit_eq true (lit "Rating:") lbl.

Definition has_summary_label (text : jsstring) : Prop :=
  ∃ pre lbl post, text = pre ++ lbl ++ post ∧ is_summary_label lbl.

(** ** Events, rows and reports *)

Definition is_terminal (ev : event) : bool :=
  match ev with
  | EvEmit (processingComplete _ _) | EvEmit (processingError _ _) => true
  | _ => false
  end.

Definition is_fetch (ev : event) : bool :=
  match ev with EvFetch _ => true | _ => false end.

Definition is_generate (ev : event) : bool :=
  match ev with EvGenerate _ => true | _ => false end.

Definition is_emit (ev : event) : bool :=
  match ev with EvEmit _ => true | _ => false end.

(** [σ'] continues [σ] with the events [evs]. *)
Definition continues {W} (σ σ' : state (W:=W)) (evs : list event) : Prop :=
  trace σ' = trace σ ++ evs.

Definition not_configured : jsstring := lit "LLM not configured.".

Definition skipped : jsstring :=
  lit "LLM analysis skipped due to no extracted PDF text.".

(** The report is exactly the one of an unconfigured backend. *)
Definition unconfigured_report (r : Z) (s : jsstring) : bool :=
  bool_decide (r = 0 ∧ s = not_configured).

(** [row.prop], for a row that is an object *)
Definition field (row : rowval) (prop : string) : value :=
  default VUndefined (spread row !! lit prop).

Definition success (res : gmap jsstring value) : bool :=
  bool_decide (res !! lit "pdfExtractionStatus" = Some (VStr (lit "Success"))).


(** A scored row whose report is not that of an unconfigured backend. *)
Definition analysed (res : gmap jsstring value) : bool :=
  success res
  && negb (bool_decide (res !! lit "Rating" = Some (VNum 0)
                        ∧ res !! lit "Summary" = Some (VStr not_configured))).

Fixpoint count {A} (f : A → bool) (l : list A) : nat :=
  match l with
  | [] => 0
  | x :: l' => Nat.b2n (f x) + count f l'
  end.

(** The identity under which the turn for record [i] reports. *)
Definition email_of (i : nat) (row : rowval) : value :=
  or_else (field row "email") (VStr (lit "NoEmail_" ++ nat_to_jsstring i)).

(** The state in which the acquisition phase of the turn for record [i]
    starts: the turn has announced the record, and nothing else. *)
Definition announced {W} (n i : nat) (row : rowval) (σ : state (W:=W))
  : state (W:=W) :=
  record
    (EvEmit (processingUpdate None
               (lit "Processing resume " ++ nat_to_jsstring (i + 1) ++ lit "/"
                ++ nat_to_jsstring n ++ lit " (Email: "
                ++ to_jsstring (email_of i row) ++ lit ")...")))
    σ.

(** What one turn of the loop appends for [row]. *)
Definition row_outcome (model : option generative_model) (row : rowval)
    (res : gmap jsstring value) : Prop :=
  ∃ c r s,
    res = processedRow row c r s
    ∧ (∃ fields, row = RowObject fields)
    ∧ 0 ≤ r ≤ 10
    ∧ (∀ t, text c = Some t → t ≠ [] ∧ trim t ≠ [])
    ∧ (has_text c = false → r = 0 ∧ s = skipped)
    ∧ (model = None → r = 0 ∧ (has_text c = true → s = not_configured))
    ∧ (truthy (field row "resume_link") = false → c = Content None).

(** Inputs on which no turn of the loop raises an exception. *)
Definition well_formed_row (row : rowval) : Prop :=
  ∃ fields, row = RowObject fields
            ∧ (truthy (field row "resume_link") = false
               ∨ ∃ s, field row "resume_link" = VStr s).

Definition well_formed_text (txtData : value) : Prop :=
  txtData ≠ VUndefined ∧ txtData ≠ VNull.

Definition bump_extractions (v : locals) (b : bool) : locals :=
  Locals (processedResumes v) (successfulExtractions v + Nat.b2n b)
         (successfulLLMCalls v).

Definition bump_calls (v : locals) (b : bool) : locals :=
  Locals (processedResumes v) (successfulExtractions v)
         (successfulLLMCalls v + Nat.b2n b).

Definition quiet (model : option generative_model) (ev : event) : Prop :=
  is_terminal ev = false ∧ (model = None → is_generate ev = false).

Definition generic_message : jsstring :=
  lit "An error occurred during backend processing. Check server logs.".

Definition started : event :=
  EvEmit (processingUpdate (Some (lit "analysing all resume"))
            (lit "Received data. Initializing analysis process...")).

(** The state in which the [try] block is entered. *)
Definition job_start {W} (w : W) : state (W:=W) := State w [started] (Locals [] 0 0).

(** The report a finished job sent, if it sent one last. *)
Definition final_report (tr : list event)
  : option (list (gmap jsstring value) * jsstring) :=
  match last tr with
  | Some (EvEmit (processingComplete finalData report)) => Some (finalData, report)
  | _ => None
  end.

(** [res] is a result row for the record [row]: the record's own fields,
    with the three result fields set. *)
Definition result_for (row : rowval) (res : gmap jsstring value) : Prop :=
  ∃ fields status r s,
    row = RowObject fields
    ∧ res = <[lit "Summary" := VStr s]>
              (<[lit "Rating" := VNum r]>
                 (<[lit "pdfExtractionStatus" := VStr status]> fields))
    ∧ (status = lit "Success" ∨ status = lit "Failed").

Global Instance ScoreResult_eq_dec : EqDecision ScoreResult.
Proof. solve_decision. Defined.

(** ** The sentences of the specification on the response *)

(** [occurs_ci l text]: the literal [l] occurs in [text], in any letter case. *)
Fixpoint occurs_ci (l text : jsstring) : bool :=
  bool_decide (is_Some (lit_k true l text))
  || match text with
     | [] => false
     | _ :: text' => occurs_ci l text'
     end.

Definition mentions_rating (text : jsstring) : bool :=
  occurs_ci (lit "Rating:") text.

Definition mentions_summary (text : jsstring) : bool :=
  occurs_ci (lit "Summarized Report:") text || occurs_ci (lit "Summary:") text.

(** The shape of a rated response in the words of the specification, read
    generously: the label in any letter case, white space allowed before
    the integer. *)
Fixpoint stated_rating_shape (text : jsstring) : bool :=
  match lit_k true (lit "Rating:") text with
  | Some rest =>
      match drop_while is_ws rest with
      | d :: _ => is_digit d
      | [] => false
      end
  | None => false
  end
  || match text with
     | [] => false
     | _ :: text' => stated_rating_shape text'
     end.

(** The specification's sentence on the rating pattern: only a response of
    the stated shape is rated above [0]. *)
Definition only_stated_shape_is_rated : Prop :=
  ∀ text, rating_of text ≠ 0 → stated_rating_shape text = true.

(** ** Sample jobs *)

Definition sample_model : option generative_model :=
  Some (GenerativeModel (lit "key") (lit "gemini-2.5-flash")).

(** A world that counts the downloads made so far: the second one times
    out.  Every document reads the same, and the backend answers in the
    format the prompt asks for. *)
Definition second_download_times_out : world nat :=
  World
    (λ _ n, (if (n =? 1)%nat
             then FetchRejects (LibraryError (lit "network timeout"))
             else FetchResponse true (inr []), S n))
    (λ _ n, (ParseData (lit "Ten years of backend work"), n))
    (λ _ n, (GenerateText (lit "Rating:8/10 Summary:Strong match"), n)).

(** A world in which every call to the scoring backend fails. *)
Definition backend_down : world unit :=
  World
    (λ _ _, (FetchResponse true (inr []), tt))
    (λ _ _, (ParseData (lit "Ten years of backend work"), tt))
    (λ _ _, (GenerateThrows (LibraryError (lit "503 Service Unavailable")), tt)).

Definition only_email (email : string) : gmap jsstring value :=
  {[ lit "email" := VStr (lit email) ]}.

Definition candidate (email link : string) : rowval :=
  RowObject (<[lit "resume_link" := VStr (lit link)]> (only_email email)).

Definition three_candidates : list rowval :=
  [ candidate "ada@example.org" "https://drive.google.com/file/d/1AbC_d-9/view";
    candidate "bob@example.org" "https://example.org/bob.pdf";
    candidate "eve@example.org" "https://drive.google.com/open?id=xyz" ].

(** ** Further vocabulary *)

(** The response in the format the prompt asks for. *)
Definition formatted_response (r : nat) (s : jsstring) : jsstring :=
  lit "Rating:" ++ nat_to_jsstring r ++ lit "/10 Summary:" ++ s.

(** A summary as the handler reports it: one line, no white space at
    either end. *)
Definition one_trimmed_line (s : jsstring) : Prop :=
  Forall (λ c, is_dot c = true) s
  ∧ head (is_ws <$> s) ≠ Some true
  ∧ last (is_ws <$> s) ≠ Some true.

(** The exception that the turn of the loop for [row] raises before any
    call to the outside, if the row is not a record with a usable link. *)
Definition row_fault (row : rowval) : option exn :=
  match row with
  | RowUndefined => Some (cannot_read "undefined" "email")
  | RowNull => Some (cannot_read "null" "email")
  | RowObject fields =>
      match default VUndefined (fields !! lit "resume_link") with
      | VStr _ => None
      | v => if truthy v
             then Some (TypeError (lit "resume_link.match is not a function"))
             else None
      end
  end.

(** The prompts that a job with job description [txtData] can send. *)
Definition prompt_for (txtData : value) (p : jsstring) : Prop :=
  ∃ t jd, t ≠ [] ∧ job_description_part txtData = Normal jd
          ∧ p = prompt_text (truncated t) jd.

(** The event [ev], if it is a call to the backend, sends such a prompt. *)
Definition asks (txtData : value) (ev : event) : Prop :=
  ∀ p, ev = EvGenerate p → prompt_for txtData p.


(** The truth value of [row.resume_link]. *)
Definition has_link (row : rowval) : bool := truthy (field row "resume_link").

(** The number of backend calls that the result rows account for. *)
Definition backend_calls (model : option generative_model)
    (results : list (gmap jsstring value)) : nat :=
  match model with
  | Some _ => count success results
  | None => 0%nat
  end.

(** The exceptions that reach the handler's [catch]. *)
Definition job_fault (csvData : batch) (txtData : value) (e : exn) : Prop :=
  match csvData with
  | BatchUndefined => e = cannot_read "undefined" "length"
  | BatchNull => e = cannot_read "null" "length"
  | BatchArray rows =>
      (∃ row, row ∈ rows ∧ row_fault row = Some e)
      ∨ job_description_part txtData = Throws e
  end.

(** The texts that the [error] member of a [processingError] event can hold. *)
Definition error_messages : list jsstring :=
  [ lit "Cannot read properties of undefined (reading 'length')";
    lit "Cannot read properties of null (reading 'length')";
    lit "Cannot read properties of undefined (reading 'email')";
    lit "Cannot read properties of null (reading 'email')";
    lit "resume_link.match is not a function" ].

(** ** Further sample jobs *)

Definition one_bad_record : list rowval :=
  [ candidate "ada@example.org" "https://example.org/ada.pdf";
    RowNull;
    candidate "eve@example.org" "https://drive.google.com/open?id=xyz" ].


(** A world in which every call succeeds. *)
Definition answering : world unit :=
  World
    (λ _ _, (FetchResponse true (inr []), tt))
    (λ _ _, (ParseData (lit "Ten years of backend work"), tt))
    (λ _ _, (GenerateText (lit "Rating:8/10 Summary:Strong match"), tt)).

Definition no_link_record : list rowval :=
  [ RowObject (only_email "ada@example.org") ].

(** * Proofs *)

(** ** The matcher *)

Section RegexFacts.

Context {R : Type}.

Implicit Types (k : jsstring → option R) (s l : jsstring) (p : N → bool).

Lemma lit_k_sound ic l s s' :
  lit_k ic l s = Some s' → ∃ s1, s = s1 ++ s' ∧ lit_eq ic l s1.
Proof.
  revert s. induction l as [|a l IH]; intros s H; simpl in H.
  - exists []. split; [by simplify_eq | constructor].
  - destruct s as [|c s]; [done|].
    destruct (char_eq ic a c) eqn:E; [|done].
    destruct (IH _ H) as (s1 & -> & Hs1).
    exists (c :: s1). split; [done | by constructor].
Qed.

Lemma lit_k_complete ic l s1 s2 :
  lit_eq ic l s1 → lit_k ic l (s1 ++ s2) = Some s2.
Proof.
  induction 1 as [|a c l s1 Hac _ IH]; simpl; [done|]. by rewrite Hac.
Qed.

Lemma star_k_sound p s k x :
  star_k p s k = Some x →
  ∃ s1 s2, s = s1 ++ s2 ∧ Forall (λ c, p c = true) s1 ∧ k s2 = Some x.
Proof.
  induction s as [|c s IH]; simpl; intros H.
  - exists [], []. by repeat split.
  - destruct (p c) eqn:Hp.
    + destruct (star_k p s k) as [y|] eqn:E.
      * simplify_eq. destruct (IH eq_refl) as (s1 & s2 & -> & Hs1 & Hk).
        exists (c :: s1), s2. repeat split; [by constructor | done].
      * exists [], (c :: s). by repeat split.
    + exists [], (c :: s). by repeat split.
Qed.

Lemma star_k_complete p s1 s2 k :
  Forall (λ c, p c = true) s1 → is_Some (k s2) → is_Some (star_k p (s1 ++ s2) k).
Proof.
  intros Hs1 Hk. induction Hs1 as [|c s1 Hc _ IH]; simpl.
  - destruct s2 as [|c s2]; simpl; [done|].
    destruct (p c); [|done]. by destruct (star_k p s2 k).
  - rewrite Hc. destruct IH as [y ->]. by eexists.
Qed.

(** With a continuation that accepts everything, the greedy run is kept. *)
Lemma star_k_greedy p s k :
  (∀ s', is_Some (k s')) → star_k p s k = k (drop_while p s).
Proof.
  intros Hk. induction s as [|c s IH]; simpl; [done|].
  destruct (p c); [|done]. rewrite IH. by destruct (Hk (drop_while p s)) as [y ->].
Qed.

Lemma rmatch_sound ic r : ∀ s c (k : jsstring → option jsstring → option R) x,
  rmatch ic r s c k = Some x →
  ∃ s1 s2 c', s = s1 ++ s2 ∧ denotes ic r s1 c c' ∧ k s2 c' = Some x.
Proof.
  induction r as [l|r1 IH1 r2 IH2|r1 IH1 r2 IH2|r IH|p|p|r IH];
    intros s c k x H; simpl in H.
  - destruct (lit_k ic l s) as [s'|] eqn:E; [|done].
    destruct (lit_k_sound _ _ _ _ E) as (s1 & -> & Hl).
    by exists s1, s', c.
  - destruct (IH1 _ _ _ _ H) as (s1 & s2 & cm & -> & H1 & Hk).
    destruct (IH2 _ _ _ _ Hk) as (s3 & s4 & c' & -> & H2 & Hk').
    exists (s1 ++ s3), s4, c'. split; [by rewrite <-(assoc_L (++))|].
    split; [|done]. simpl. by exists s1, s3, cm.
  - destruct (rmatch ic r1 s c k) as [y|] eqn:E.
    + simplify_eq. destruct (IH1 _ _ _ _ E) as (s1 & s2 & c' & -> & H1 & Hk).
      exists s1, s2, c'. simpl. by eauto.
    + destruct (IH2 _ _ _ _ H) as (s1 & s2 & c' & -> & H1 & Hk).
      exists s1, s2, c'. simpl. by eauto.
  - destruct (rmatch ic r s c k) as [y|] eqn:E.
    + simplify_eq. destruct (IH _ _ _ _ E) as (s1 & s2 & c' & -> & H1 & Hk).
      exists s1, s2, c'. simpl. by eauto.
    + exists [], s, c. simpl. by eauto.
  - destruct (star_k_sound _ _ _ _ H) as (s1 & s2 & -> & Hs1 & Hk).
    by exists s1, s2, c.
  - destruct s as [|a s]; [done|]. destruct (p a) eqn:Hp; [|done].
    destruct (star_k_sound _ _ _ _ H) as (s1 & s2 & -> & Hs1 & Hk).
    exists (a :: s1), s2, c. repeat split; [done | by constructor | done].
  - destruct (IH _ _ _ _ H) as (s1 & s2 & cm & -> & H1 & Hk).
    exists s1, s2, (Some s1). split; [done|]. split; [simpl; by eauto|].
    rewrite length_app, Nat.add_sub, take_app_length in Hk. done.
Qed.

Lemma rmatch_complete ic r : ∀ s1 s2 c c' (k : jsstring → option jsstring → option R),
  denotes ic r s1 c c' → is_Some (k s2 c') → is_Some (rmatch ic r (s1 ++ s2) c k).
Proof.
  induction r as [l|r1 IH1 r2 IH2|r1 IH1 r2 IH2|r IH|p|p|r IH];
    intros s1 s2 c c' k H Hk; simpl in H |- *.
  - destruct H as [Hl ->]. by rewrite (lit_k_complete _ _ _ _ Hl).
  - destruct H as (t1 & t2 & cm & -> & H1 & H2).
    rewrite <-(assoc_L (++)). eapply IH1; [done|]. by eapply IH2.
  - destruct H as [H|H].
    + destruct (IH1 _ s2 _ _ k H Hk) as [y ->]. by eexists.
    + destruct (rmatch ic r1 (s1 ++ s2) c k); [by eexists|]. by eapply IH2.
  - destruct H as [H|[-> ->]].
    + destruct (IH _ s2 _ _ k H Hk) as [y ->]. by eexists.
    + simpl. by destruct (rmatch ic r s2 c k).
  - destruct H as [Hs1 ->]. by apply star_k_complete.
  - destruct H as (Hne & Hs1 & ->). destruct Hs1 as [|a s1 Ha Hs1]; [done|].
    simpl. rewrite Ha. by apply star_k_complete.
  - destruct H as (cm & H & ->). eapply IH; [done|].
    by rewrite length_app, Nat.add_sub, take_app_length.
Qed.

End RegexFacts.

Lemma exec_sound ic r s m :
  exec ic r s = Some m →
  ∃ pre s', s = pre ++ s' ∧ match_here ic r s' = Some m
            ∧ ∀ p1 s1, s = p1 ++ s1 → (length p1 < length pre)%nat →
                       match_here ic r s1 = None.
Proof.
  induction s as [|a s IH]; simpl; intros H.
  - destruct (match_here ic r []) eqn:E; [|done]. simplify_eq.
    exists [], []. repeat split; [done|]. simpl. lia.
  - destruct (match_here ic r (a :: s)) eqn:E.
    + simplify_eq. exists [], (a :: s). repeat split; [done|]. simpl. lia.
    + destruct (IH H) as (pre & s' & -> & Hm & Hl).
      exists (a :: pre), s'. repeat split; [done|].
      intros [|b p1] s1 Heq Hlen; simpl in *; [by simplify_eq|].
      simplify_eq. eapply Hl; [done | lia].
Qed.

Lemma exec_complete ic r pre s' :
  is_Some (match_here ic r s') → is_Some (exec ic r (pre ++ s')).
Proof.
  intros [m Hm]. induction pre as [|a pre IH]; simpl.
  - destruct s'; simpl; by rewrite Hm.
  - by destruct (match_here ic r (a :: pre ++ s')).
Qed.

(** ** The leftmost match *)

Lemma leftmost_somewhere P text x : leftmost P text x → somewhere P text.
Proof. intros (pre & s & -> & Hs & _). by exists pre, s, x. Qed.

Section Leftmost.

Context (ic : bool) (r : regex) (P : jsstring → jsstring → Prop).

Hypothesis here : ∀ s m, match_here ic r s = Some m ↔ ∃ x, m = Some x ∧ P s x.

Lemma exec_leftmost text m :
  exec ic r text = Some m ↔ ∃ x, m = Some x ∧ leftmost P text x.
Proof.
  split.
  - intros (pre & s & -> & Hm & Hleft)%exec_sound.
    apply here in Hm as (x & -> & Hs).
    exists x. split; [done|]. exists pre, s. repeat split; [done|].
    intros p1 s1 x1 Heq Hs1.
    destruct (decide (length pre ≤ length p1)%nat); [done|].
    assert (match_here ic r s1 = None) as Hn by (apply (Hleft p1); [done | lia]).
    assert (match_here ic r s1 = Some (Some x1)) as Hy by (apply here; eauto).
    congruence.
  - intros (x & -> & pre & s & -> & Hs & Hleft).
    assert (match_here ic r s = Some (Some x)) as Hsome by (apply here; eauto).
    destruct (exec_complete ic r pre s (mk_is_Some _ _ Hsome)) as [m Hm].
    rewrite Hm. f_equal.
    apply exec_sound in Hm as (pre' & s' & Heq & Hm & Hleft').
    pose proof Hm as Hm'. apply here in Hm' as (x' & -> & Hs').
    pose proof (Hleft _ _ _ Heq Hs') as Hle.
    assert (length pre = length pre') as Hlen.
    { destruct (decide (length pre < length pre')%nat) as [Hlt|]; [|lia].
      pose proof (Hleft' pre s eq_refl Hlt) as Hn. congruence. }
    apply app_inj_1 in Heq as [-> ->]; [|done]. congruence.
Qed.

Lemma exec_nowhere text :
  exec ic r text = None ↔ ¬ somewhere P text.
Proof.
  split.
  - intros Hn (pre & s & x & -> & Hs).
    assert (match_here ic r s = Some (Some x)) as Hsome by (apply here; eauto).
    destruct (exec_complete ic r pre s (mk_is_Some _ _ Hsome)) as [m Hm].
    congruence.
  - intros Hno. destruct (exec ic r text) as [m|] eqn:E; [|done].
    apply exec_leftmost in E as (x & -> & Hl).
    destruct Hno. by eapply leftmost_somewhere.
Qed.

End Leftmost.

(** ** Greedy runs *)

Lemma drop_while_length p s : (length (drop_while p s) ≤ length s)%nat.
Proof. induction s as [|a s IH]; simpl; [lia|]. destruct (p a); simpl; lia. Qed.

Lemma take_drop_while p s :
  take (length s - length (drop_while p s)) s = take_while p s.
Proof.
  induction s as [|a s IH]; simpl; [done|].
  destruct (p a) eqn:E.
  - pose proof (drop_while_length p s).
    replace (S (length s) - length (drop_while p s))%nat
      with (S (length s - length (drop_while p s))) by lia.
    simpl. by rewrite IH.
  - simpl. by rewrite Nat.sub_diag.
Qed.

Lemma take_while_Forall p s : Forall (λ c, p c = true) (take_while p s).
Proof.
  induction s as [|a s IH]; simpl; [constructor|].
  destruct (p a) eqn:E; by constructor.
Qed.

Lemma group_plus_final ic p s c :
  rmatch ic (Group (Plus p)) s c (λ _ cap, Some cap) = run1 p s.
Proof.
  unfold run1. simpl. destruct s as [|a s]; [done|].
  destruct (p a) eqn:E; [|done].
  rewrite star_k_greedy by eauto.
  pose proof (take_drop_while p (a :: s)) as H. simpl in H. rewrite E in H.
  simpl. rewrite E. by do 2 f_equal.
Qed.

(** ** The share-link pattern *)

Lemma lit_eq_exact l s : lit_eq false l s → s = l.
Proof.
  induction 1 as [|a c l s Hac _ IH]; [done|].
  simpl in Hac. apply N.eqb_eq in Hac. by subst.
Qed.

Lemma lit_eq_refl ic l : lit_eq ic l l.
Proof.
  induction l as [|a l IH]; constructor; [|done].
  unfold char_eq. destruct ic; apply N.eqb_refl.
Qed.

Lemma shareUrlHead_denotes s c c' :
  denotes false shareUrlHead s c c' → s ∈ share_prefixes ∧ c' = c.
Proof.
  unfold shareUrlHead. simpl. intros H.
  repeat match goal with
         | H : ∃ _, _ |- _ => destruct H as [? H]
         | H : _ ∧ _ |- _ => destruct H as [? ?]
         | H : _ ∨ _ |- _ => destruct H as [H|H]
         | H : lit_eq false _ _ |- _ => apply lit_eq_exact in H
         end; subst; (split; [|done]);
    apply (bool_decide_unpack _); vm_compute; exact I.
Qed.

Ltac eval_lits :=
  repeat match goal with
         | |- context [lit ?s] =>
             let v := eval vm_compute in (lit s) in change (lit s) with v
         end.

Lemma shareUrlHead_match {R} p s r c (k : jsstring → option jsstring → option R) :
  p ∈ share_prefixes →
  rmatch false (shareUrlHead ⋅ r) (p ++ s) c k = rmatch false r s c k.
Proof.
  intros Hp. unfold share_prefixes in Hp.
  repeat (apply elem_of_cons in Hp as [->|Hp]);
    [..|by apply elem_of_nil in Hp]; unfold shareUrlHead; eval_lits; simpl;
    by destruct (rmatch false r s c k).
Qed.

Lemma gd_match_prefix p s :
  p ∈ share_prefixes →
  match_here false googleDriveRegex (p ++ s) = run1 is_id_char s.
Proof.
  intros Hp. rewrite <-(group_plus_final false is_id_char s None).
  by apply shareUrlHead_match.
Qed.

Lemma gd_match_here s m :
  match_here false googleDriveRegex s = Some m ↔
  ∃ p rest, p ∈ share_prefixes ∧ s = p ++ rest ∧ run1 is_id_char rest = Some m.
Proof.
  split.
  - intros H. apply (rmatch_sound false shareUrlHead) in H
      as (s1 & s2 & c' & -> & Hd & Hk).
    apply shareUrlHead_denotes in Hd as [Hp ->].
    change (rmatch false (Group (Plus is_id_char)) s2 None (λ _ cap, Some cap)
            = Some m) in Hk.
    rewrite group_plus_final in Hk. by exists s1, s2.
  - intros (p & rest & Hp & -> & Hr). by rewrite gd_match_prefix.
Qed.

(** ** The link resolver *)

Lemma run1_Some p s m :
  run1 p s = Some m ↔ m = Some (take_while p s) ∧ take_while p s ≠ [].
Proof.
  unfold run1. destruct s as [|a s]; simpl; [naive_solver|].
  destruct (p a); naive_solver.
Qed.

Lemma gd_match_here_share s m :
  match_here false googleDriveRegex s = Some m ↔
  ∃ fileId, m = Some fileId ∧ share_link_at s fileId.
Proof.
  rewrite gd_match_here. unfold share_link_at. split.
  - intros (p & rest & Hp & -> & [-> Hne]%run1_Some). naive_solver.
  - intros (f & -> & p & rest & Hp & -> & -> & Hne).
    exists p, rest. by rewrite run1_Some.
Qed.

Lemma gd_exec link m :
  exec false googleDriveRegex link = Some m ↔
  ∃ fileId, m = Some fileId ∧ share_link link fileId.
Proof. apply exec_leftmost, gd_match_here_share. Qed.

Lemma gd_exec_None link :
  exec false googleDriveRegex link = None ↔ ¬ is_share_link link.
Proof. apply exec_nowhere, gd_match_here_share. Qed.

Lemma share_link_is link f : share_link link f → is_share_link link.
Proof. apply leftmost_somewhere. Qed.

Lemma share_link_id_chars link f :
  share_link link f → f ≠ [] ∧ Forall (λ c, is_id_char c = true) f.
Proof.
  intros (pre & s & -> & (p & rest & Hp & -> & -> & Hne) & _).
  split; [done | apply take_while_Forall].
Qed.

Lemma effectiveResumeLink_cases link :
  (∃ fileId, share_link link fileId
             ∧ effectiveResumeLink link = direct_download fileId)
  ∨ (¬ is_share_link link ∧ effectiveResumeLink link = link).
Proof.
  unfold effectiveResumeLink.
  destruct (exec false googleDriveRegex link) as [m|] eqn:E.
  - apply gd_exec in E as (f & -> & Hs). left. exists f. split; [done|].
    apply share_link_id_chars in Hs as [Hne _]. by rewrite bool_decide_eq_false_2.
  - right. by apply gd_exec_None in E.
Qed.

Lemma gd_match_here_first a s :
  a ≠ 104%N → match_here false googleDriveRegex (a :: s) = None.
Proof.
  intros Ha. unfold match_here, googleDriveRegex, shareUrlHead. eval_lits.
  cbn [rmatch lit_k char_eq].
  destruct (104 =? a)%N eqn:E; [|done]. apply N.eqb_eq in E. congruence.
Qed.

Lemma Forall_forallb (p : N → bool) s :
  Forall (λ c, p c = true) s → forallb p s = true.
Proof. induction 1 as [|a s Ha _ IH]; simpl; [done|]. by rewrite Ha, IH. Qed.

Lemma share_prefix_not_id p :
  p ∈ share_prefixes → ¬ Forall (λ c, is_id_char c = true) p.
Proof.
  intros Hp HF%Forall_forallb. unfold share_prefixes in Hp.
  repeat (apply elem_of_cons in Hp as [->|Hp]);
    [..|by apply elem_of_nil in Hp]; vm_compute in HF; discriminate.
Qed.

Lemma id_chars_not_share f :
  Forall (λ c, is_id_char c = true) f → ¬ is_share_link f.
Proof.
  intros HF (pre & s & g & -> & p & rest & Hp & -> & _).
  apply Forall_app in HF as [_ HF]. apply Forall_app in HF as [HF _].
  by apply share_prefix_not_id in Hp.
Qed.

Lemma direct_download_not_share fileId :
  Forall (λ c, is_id_char c = true) fileId →
  ¬ is_share_link (direct_download fileId).
Proof.
  intros HF. apply gd_exec_None. unfold direct_download. eval_lits.
  cbn [app]. 
  assert (∀ s, match_here false googleDriveRegex
     (104 :: 116 :: 116 :: 112 :: 115 :: 58 :: 47 :: 47 :: 100 :: 114 :: 105
      :: 118 :: 101 :: 46 :: 103 :: 111 :: 111 :: 103 :: 108 :: 101 :: 46
      :: 99 :: 111 :: 109 :: 47 :: 117 :: s)%N = None) as H0.
  { intros s. unfold match_here, googleDriveRegex, shareUrlHead. eval_lits.
    reflexivity. }
  cbn [exec]. rewrite H0.
  repeat (rewrite gd_match_here_first by done).
  by apply gd_exec_None, id_chars_not_share.
Qed.

(** C4.  The link resolver rewrites a link that holds a cloud-drive share
    URL (view or open form) into the direct-download URL built from the
    file id found at the leftmost such place, which is
    [https://drive.google.com/uc?export=download&id=] followed by that id,
    and returns every other string unchanged.  A direct-download URL is
    such an other string, so resolving it is the identity, and resolving
    is idempotent. *)
Theorem link_resolver_rewrites_share_links_only (link : jsstring) :
  (∀ fileId, share_link link fileId →
             effectiveResumeLink link
             = lit "https://drive.google.com/uc?export=download&id=" ++ fileId)
  ∧ (¬ is_share_link link → effectiveResumeLink link = link)
  ∧ (∀ fileId, Forall (λ c, is_id_char c = true) fileId →
               effectiveResumeLink
                 (lit "https://drive.google.com/uc?export=download&id=" ++ fileId)
               = lit "https://drive.google.com/uc?export=download&id=" ++ fileId)
  ∧ effectiveResumeLink (effectiveResumeLink link) = effectiveResumeLink link.
Proof.
  assert (∀ l, ¬ is_share_link l → effectiveResumeLink l = l) as Hid.
  { intros l Hl. destruct (effectiveResumeLink_cases l) as [(f & Hs & _)|[_ H]];
      [|done]. destruct Hl. by eapply share_link_is. }
  assert (∀ f, Forall (λ c, is_id_char c = true) f →
               effectiveResumeLink (direct_download f) = direct_download f) as Hdd.
  { intros f Hf. by apply Hid, direct_download_not_share. }
  split; [|split; [by apply Hid|split; [by apply Hdd|]]].
  - intros f Hs. change (effectiveResumeLink link = direct_download f).
    destruct (effectiveResumeLink_cases link) as [(g & Hg & ->)|[Hn _]].
    + assert (exec false googleDriveRegex link = Some (Some f)) as Hf
        by (apply gd_exec; eauto).
      assert (exec false googleDriveRegex link = Some (Some g)) as Hg'
        by (apply gd_exec; eauto).
      congruence.
    + destruct Hn. by eapply share_link_is.
  - destruct (effectiveResumeLink_cases link) as [(g & Hg & ->)|[_ H]];
      [|by rewrite !H].
    apply Hdd. by apply share_link_id_chars in Hg as [_ ?].
Qed.

(** ** The rating pattern *)

Lemma rating_split s :
  match_here true ratingRegex s
  = rmatch true rating_head s None
      (λ s' c', rmatch true rating_tail s' c' (λ _ cap, Some cap)).
Proof. reflexivity. Qed.

Lemma star_k_const {R} p s (k : jsstring → option R) x :
  (∀ s', k s' = Some x) → star_k p s k = Some x.
Proof.
  intros Hk. induction s as [|a s IH]; simpl; [done|].
  destruct (p a); [by rewrite IH | done].
Qed.

Lemma star_k_ext {R} p s (k1 k2 : jsstring → option R) :
  (∀ s', k1 s' = k2 s') → star_k p s k1 = star_k p s k2.
Proof.
  intros Hk. induction s as [|a s IH]; simpl; [done|].
  by rewrite IH, Hk.
Qed.

Lemma rating_suffix_final s c :
  rmatch true (Opt (Lit (lit "/") ⋅ Plus is_digit)) s c (λ _ cap, Some cap)
  = Some c.
Proof.
  cbn [rmatch]. destruct (lit_k true (lit "/") s) as [s'|]; [|done].
  destruct s' as [|a s']; [done|]. destruct (is_digit a); [|done].
  by rewrite (star_k_const _ _ _ c).
Qed.

Lemma rating_tail_final s c :
  rmatch true rating_tail s c (λ _ cap, Some cap) = run1 is_digit s.
Proof.
  rewrite <-(group_plus_final true is_digit s c).
  unfold rating_tail. cbn [rmatch].
  destruct s as [|a s]; [done|]. destruct (is_digit a); [|done].
  apply star_k_ext. intros s''.
  apply (rating_suffix_final s'' (Some (take (length (a :: s) - length s'') (a :: s)))).
Qed.

Lemma canonicalize_inv a c :
  (a < 97 ∨ 122 < a)%N → canonicalize a = canonicalize c →
  c = a ∨ (65 ≤ a ≤ 90)%N ∧ c = (a + 32)%N.
Proof.
  unfold canonicalize. intros Ha.
  destruct ((97 <=? a)%N && (a <=? 122)%N) eqn:E1;
    destruct ((97 <=? c)%N && (c <=? 122)%N) eqn:E2;
    rewrite ?andb_true_iff, ?andb_false_iff, ?N.leb_le, ?N.leb_gt in *; lia.
Qed.

Lemma lit_eq_star st : lit_eq true (lit "*") st → st = lit "*".
Proof.
  change (lit "*") with [42%N]. intros H.
  inversion H as [|a c l s Hac Hl]; subst.
  inversion Hl; subst. f_equal.
  unfold char_eq in Hac. apply N.eqb_eq in Hac.
  apply canonicalize_inv in Hac; [|lia]. lia.
Qed.

Lemma rating_head_denotes s c c' :
  denotes true rating_head s c c' →
  c' = c ∧ ∃ num lbl ws st,
    s = num ++ lbl ++ ws ++ st
    ∧ (num = [] ∨ lit_eq true (lit "Numeric ") num)
    ∧ lit_eq true (lit "Rating:") lbl
    ∧ Forall (λ c, is_ws c = true) ws
    ∧ (st = [] ∨ st = lit "*").
Proof.
  unfold rating_head. cbn [denotes].
  intros (num & s1 & c1 & -> & Hnum & lbl & s2 & c2 & -> & [Hlbl ->] & ws & st
          & c3 & -> & [Hws ->] & Hst).
  assert (c1 = c ∧ (num = [] ∨ lit_eq true (lit "Numeric ") num)) as [-> Hn]
    by (destruct Hnum as [[? ->]|[-> ->]]; eauto).
  assert (c' = c ∧ (st = [] ∨ st = lit "*")) as [-> Hs]
    by (destruct Hst as [[?%lit_eq_star ->]|[-> ->]]; eauto).
  split; [done|]. by exists num, lbl, ws, st.
Qed.

Lemma rmatch_opt_lit_None {R} ic l s c (k : jsstring → option jsstring → option R) :
  lit_k ic l s = None → rmatch ic (Opt (Lit l)) s c k = k s c.
Proof. intros H. cbn [rmatch]. by rewrite H. Qed.

Lemma rmatch_opt_lit_Some {R} ic l s s' c (k : jsstring → option jsstring → option R) :
  lit_k ic l s = Some s' → is_Some (k s' c) →
  rmatch ic (Opt (Lit l)) s c k = k s' c.
Proof. intros H [x Hx]. cbn [rmatch]. by rewrite H, Hx. Qed.

Lemma rmatch_lit_Some {R} ic l s s' c (k : jsstring → option jsstring → option R) :
  lit_k ic l s = Some s' → rmatch ic (Lit l) s c k = k s' c.
Proof. intros H. cbn [rmatch]. by rewrite H. Qed.

Lemma star_k_stop {R} p s1 s2 (k : jsstring → option R) :
  Forall (λ c, p c = true) s1 → head (p <$> s2) ≠ Some true → is_Some (k s2) →
  star_k p (s1 ++ s2) k = k s2.
Proof.
  intros Hs1 Hs2 [x Hx]. induction Hs1 as [|a s1 Ha _ IH]; simpl.
  - destruct s2 as [|b s2]; simpl in *; [done|]. by destruct (p b).
  - by rewrite Ha, IH, Hx.
Qed.

Lemma lit_k_mismatch ic a l b s :
  char_eq ic a b = false → lit_k ic (a :: l) (b :: s) = None.
Proof. intros H. simpl. by rewrite H. Qed.

Lemma digit_not_ws a : is_digit a = true → is_ws a = false.
Proof.
  intros H. destruct (is_ws a) eqn:E; [|done]. exfalso.
  unfold is_digit, is_ws, is_line_terminator in *.
  rewrite ?orb_true_iff, ?andb_true_iff, ?N.eqb_eq, ?N.leb_le in *. lia.
Qed.

Lemma take_while_cons_inv p s :
  take_while p s ≠ [] → ∃ a s', s = a :: s' ∧ p a = true.
Proof.
  destruct s as [|a s]; simpl; [done|]. destruct (p a) eqn:E; [|done]. eauto.
Qed.

Lemma rating_match_here s m :
  match_here true ratingRegex s = Some m ↔ ∃ ds, m = Some ds ∧ rating_place s ds.
Proof.
  rewrite rating_split. split.
  - intros (s1 & s2 & c' & -> & Hd & Hk)%rmatch_sound.
    apply rating_head_denotes in Hd as (-> & num & lbl & ws & st & -> & ?).
    rewrite rating_tail_final in Hk. apply run1_Some in Hk as [-> Hne].
    eexists. split; [done|]. exists num, lbl, ws, st, s2.
    rewrite <-!(assoc_L (++)). naive_solver.
  - intros (ds & -> & num & lbl & ws & st & rest & -> & Hnum & Hlbl & Hws & Hst
            & -> & Hne).
    assert (rmatch true rating_tail rest None (λ _ cap, Some cap)
            = Some (Some (take_while is_digit rest))) as Htail
      by (rewrite rating_tail_final; by apply run1_Some).
    destruct (take_while_cons_inv _ _ Hne) as (d & rest' & -> & Hd).
    set (K3 := λ s' c', rmatch true rating_tail s' c' (λ _ cap, Some cap)) in *.
    assert (rmatch true (Opt (Lit (lit "*"))) (st ++ d :: rest') None K3
            = K3 (d :: rest') None) as Hopt.
    { destruct Hst as [->| ->].
      - apply rmatch_opt_lit_None. change (lit "*") with [42%N].
        apply lit_k_mismatch. unfold char_eq. apply N.eqb_neq.
        unfold is_digit in Hd. apply andb_true_iff in Hd as [?%N.leb_le ?%N.leb_le].
        unfold canonicalize. simpl.
        destruct ((97 <=? d)%N && (d <=? 122)%N) eqn:E; [|lia].
        apply andb_true_iff in E as [?%N.leb_le ?%N.leb_le]. lia.
      - apply rmatch_opt_lit_Some; [|unfold K3; by rewrite Htail].
        apply (lit_k_complete true (lit "*") (lit "*")), lit_eq_refl. }
    assert (head (is_ws <$> st ++ d :: rest') ≠ Some true) as Hstop.
    { destruct Hst as [->| ->]; simpl; [|done].
      rewrite (digit_not_ws _ Hd). done. }
    set (K2 := λ s' c', rmatch true (Opt (Lit (lit "*"))) s' c' K3).
    set (K1 := λ s' c', rmatch true (Star is_ws) s' c' K2).
    set (K0 := λ s' c', rmatch true (Lit (lit "Rating:")) s' c' K1).
    change (rmatch true (Opt (Lit (lit "Numeric ")))
              (num ++ lbl ++ ws ++ st ++ d :: rest') None K0
            = Some (Some (take_while is_digit (d :: rest')))).
    assert (K2 (st ++ d :: rest') None
            = Some (Some (take_while is_digit (d :: rest')))) as H2
      by (unfold K2; by rewrite Hopt).
    assert (K1 (ws ++ st ++ d :: rest') None
            = Some (Some (take_while is_digit (d :: rest')))) as H1.
    { unfold K1. cbn [rmatch]. rewrite star_k_stop; [done..|by rewrite H2]. }
    assert (K0 (lbl ++ ws ++ st ++ d :: rest') None
            = Some (Some (take_while is_digit (d :: rest')))) as H0.
    { unfold K0. erewrite rmatch_lit_Some; [done|]. by apply lit_k_complete. }
    destruct Hnum as [->|Hnum].
    + rewrite rmatch_opt_lit_None; [done|].
      change (lit "Rating:") with [82; 97; 116; 105; 110; 103; 58]%N in Hlbl.
      inversion Hlbl as [|a c l s' Hac Hl]; subst.
      change (lit "Numeric ") with [78; 117; 109; 101; 114; 105; 99; 32]%N.
      apply lit_k_mismatch. unfold char_eq in *. apply N.eqb_eq in Hac.
      apply N.eqb_neq. rewrite <-Hac. done.
    + erewrite rmatch_opt_lit_Some; [done| |by rewrite H0].
      by apply lit_k_complete.
Qed.

Lemma ratingMatch_Some text m :
  ratingMatch text = Some m ↔ ∃ ds, m = Some ds ∧ leftmost rating_place text ds.
Proof. apply exec_leftmost, rating_match_here. Qed.

Lemma ratingMatch_None text :
  ratingMatch text = None ↔ ¬ somewhere rating_place text.
Proof. apply exec_nowhere, rating_match_here. Qed.

(** ** The summary pattern *)

Lemma summary_split s :
  match_here true summaryRegex s
  = rmatch true summary_head s None
      (λ s' c', rmatch true summary_tail s' c' (λ _ cap, Some cap)).
Proof. reflexivity. Qed.

Lemma summary_tail_final s c :
  rmatch true summary_tail s c (λ _ cap, Some cap)
  = Some (Some (take_while is_dot (drop_while is_ws s))).
Proof.
  unfold summary_tail. cbn [rmatch].
  rewrite star_k_greedy.
  - rewrite star_k_greedy by eauto. by rewrite take_drop_while.
  - intros s'. rewrite star_k_greedy by eauto. eauto.
Qed.

Lemma lit_eq_app ic l1 l2 s1 s2 :
  lit_eq ic l1 s1 → lit_eq ic l2 s2 → lit_eq ic (l1 ++ l2) (s1 ++ s2).
Proof. apply Forall2_app. Qed.

Lemma lit_eq_app_inv ic l1 l2 s :
  lit_eq ic (l1 ++ l2) s → ∃ s1 s2, s = s1 ++ s2 ∧ lit_eq ic l1 s1 ∧ lit_eq ic l2 s2.
Proof. intros (s1 & s2 & ? & ? & ->)%Forall2_app_inv_l. eauto. Qed.

Lemma summary_head_denotes s c c' :
  denotes true summary_head s c c' ↔ c' = c ∧ is_summary_label s.
Proof.
  unfold summary_head, is_summary_label. cbn [denotes].
  change (lit "Summarized Report:") with (lit "Summarized Report" ++ lit ":").
  change (lit "Summary:") with (lit "Summary" ++ lit ":").
  split.
  - intros (s1 & s2 & cm & -> & [[H1 ->]|[H1 ->]] & H2 & ->);
      (split; [done|]); [left|right]; by apply lit_eq_app.
  - intros [-> [H|H]]; apply lit_eq_app_inv in H as (s1 & s2 & -> & H1 & H2);
      exists s1, s2, c; naive_solver.
Qed.

Lemma summary_label_clash l1 l2 a1 a2 :
  lit_eq true (lit "Summarized Report:") l1 → lit_eq true (lit "Summary:") l2 →
  l1 ++ a1 ≠ l2 ++ a2.
Proof.
  intros H1 H2 Heq.
  destruct (Forall2_lookup_l _ (lit "Summarized Report:") l1 6%nat 105%N H1 eq_refl)
    as (x & Hx & Hcx).
  destruct (Forall2_lookup_l _ (lit "Summary:") l2 6%nat 121%N H2 eq_refl)
    as (y & Hy & Hcy).
  apply (lookup_app_l_Some _ a1) in Hx. apply (lookup_app_l_Some _ a2) in Hy.
  rewrite Heq in Hx. simplify_eq.
  unfold char_eq in *. apply N.eqb_eq in Hcx, Hcy. rewrite <-Hcx in Hcy. done.
Qed.

Lemma summary_label_unique l1 l2 a1 a2 :
  is_summary_label l1 → is_summary_label l2 → l1 ++ a1 = l2 ++ a2 → a1 = a2.
Proof.
  intros [H1|H1] [H2|H2] Heq.
  - apply app_inj_1 in Heq as [_ ?]; [done|].
    apply Forall2_length in H1, H2. congruence.
  - by destruct (summary_label_clash _ _ a1 a2 H1 H2).
  - by destruct (summary_label_clash _ _ a2 a1 H2 H1).
  - apply app_inj_1 in Heq as [_ ?]; [done|].
    apply Forall2_length in H1, H2. congruence.
Qed.

Lemma summary_match_here s m :
  match_here true summaryRegex s = Some m ↔ ∃ cap, m = Some cap ∧ summary_place s cap.
Proof.
  rewrite summary_split. split.
  - intros (s1 & s2 & c' & -> & Hd & Hk)%rmatch_sound.
    apply summary_head_denotes in Hd as [-> Hl].
    rewrite summary_tail_final in Hk. simplify_eq.
    eexists. split; [done|]. by exists s1, s2.
  - intros (cap & -> & lbl & after & -> & Hl & ->).
    assert (is_Some (rmatch true summary_head (lbl ++ after) None
      (λ s' c', rmatch true summary_tail s' c' (λ _ cap, Some cap)))) as [m' Hm'].
    { eapply rmatch_complete; [by apply summary_head_denotes|].
      by rewrite summary_tail_final. }
    rewrite Hm'. f_equal.
    apply rmatch_sound in Hm' as (s1 & s2 & c' & Heq & Hd & Hk).
    apply summary_head_denotes in Hd as [-> Hl'].
    rewrite summary_tail_final in Hk. simplify_eq.
    by rewrite (summary_label_unique _ _ _ _ Hl Hl' Heq).
Qed.

Lemma summaryMatch_Some text m :
  summaryMatch text = Some m ↔ ∃ cap, m = Some cap ∧ leftmost summary_place text cap.
Proof. apply exec_leftmost, summary_match_here. Qed.

Lemma summaryMatch_None text :
  summaryMatch text = None ↔ ¬ somewhere summary_place text.
Proof. apply exec_nowhere, summary_match_here. Qed.

(** ** Labels in the response *)

Lemma somewhere_summary text :
  somewhere summary_place text ↔ has_summary_label text.
Proof.
  split.
  - intros (pre & s & cap & -> & lbl & after & -> & Hl & _). by exists pre, lbl, after.
  - intros (pre & lbl & post & -> & Hl).
    exists pre, (lbl ++ post), (take_while is_dot (drop_while is_ws post)).
    split; [done|]. by exists lbl, post.
Qed.

Lemma somewhere_rating text :
  somewhere rating_place text → has_rating_label text.
Proof.
  intros (pre & s & ds & -> & num & lbl & ws & st & rest & -> & _ & Hl & _).
  exists (pre ++ num), lbl, (ws ++ st ++ rest). by rewrite <-!(assoc_L (++)).
Qed.

(** ** The rating value *)

Lemma digits_value_acc ds acc :
  Forall (λ c, is_digit c = true) ds → 0 ≤ acc →
  0 ≤ fold_left (λ a c, 10 * a + (Z.of_N c - 48)) ds acc.
Proof.
  intros H. revert acc. induction H as [|d ds Hd _ IH]; intros acc Hacc; simpl; [done|].
  apply IH. unfold is_digit in Hd.
  apply andb_true_iff in Hd as [?%N.leb_le ?%N.leb_le]. lia.
Qed.

Lemma digits_value_nonneg ds :
  Forall (λ c, is_digit c = true) ds → 0 ≤ digits_value ds.
Proof. intros H. by apply digits_value_acc. Qed.

Lemma take_while_all p s : Forall (λ c, p c = true) s → take_while p s = s.
Proof. induction 1 as [|a s Ha _ IH]; simpl; [done|]. by rewrite Ha, IH. Qed.

Lemma parseInt10_digits ds :
  ds ≠ [] → Forall (λ c, is_digit c = true) ds →
  parseInt10 ds = Some (digits_value ds).
Proof.
  intros Hne HF. destruct HF as [|d ds Hd HF]; [done|].
  unfold parseInt10, trimStart. simpl drop_while. rewrite (digit_not_ws _ Hd).
  assert ((d =? 45)%N = false ∧ (d =? 43)%N = false) as [-> ->].
  { unfold is_digit in Hd. apply andb_true_iff in Hd as [?%N.leb_le ?%N.leb_le].
    split; apply N.eqb_neq; lia. }
  simpl. rewrite Hd. by rewrite (take_while_all _ _ HF).
Qed.

Lemma rating_place_digits s ds :
  rating_place s ds → ds ≠ [] ∧ Forall (λ c, is_digit c = true) ds.
Proof.
  intros (num & lbl & ws & st & rest & -> & _ & _ & _ & _ & -> & Hne).
  split; [done | apply take_while_Forall].
Qed.

Lemma rating_of_range text : 0 ≤ rating_of text ≤ 10.
Proof.
  unfold rating_of. destruct (ratingMatch text) as [[m1|]|]; [|lia..].
  case_bool_decide; [lia|]. destruct (parseInt10 m1) as [r|]; [|lia].
  destruct (r <? 0) eqn:E1; simpl; [lia|].
  destruct (r >? 10) eqn:E2; [lia|]. lia.
Qed.

Lemma rating_of_found text ds :
  leftmost rating_place text ds →
  rating_of text = if digits_value ds <=? 10 then digits_value ds else 0.
Proof.
  intros Hl. unfold rating_of.
  assert (ratingMatch text = Some (Some ds)) as -> by (apply ratingMatch_Some; eauto).
  destruct Hl as (pre & s & -> & [Hne HF]%rating_place_digits & _).
  rewrite bool_decide_eq_false_2 by done.
  rewrite parseInt10_digits by done.
  pose proof (digits_value_nonneg _ HF).
  destruct (digits_value ds <? 0) eqn:E1; [lia|]. simpl.
  destruct (digits_value ds >? 10) eqn:E2; destruct (digits_value ds <=? 10) eqn:E3; lia.
Qed.

Lemma rating_of_nowhere text :
  ¬ somewhere rating_place text → rating_of text = 0.
Proof. intros H%ratingMatch_None. unfold rating_of. by rewrite H. Qed.

(** ** The response as a whole *)

Lemma occurs_ci_spec l text :
  occurs_ci l text = true ↔
  ∃ pre lbl post, text = pre ++ lbl ++ post ∧ lit_eq true l lbl.
Proof.
  split.
  - induction text as [|a text IH]; simpl.
    + rewrite orb_false_r. intros [s' Hs]%bool_decide_eq_true.
      apply lit_k_sound in Hs as (s1 & Heq & Hl). by exists [], s1, s'.
    + intros [[s' Hs]%bool_decide_eq_true|H]%orb_true_iff.
      * apply lit_k_sound in Hs as (s1 & Heq & Hl). by exists [], s1, s'.
      * destruct (IH H) as (pre & lbl & post & -> & Hl). by exists (a :: pre), lbl, post.
  - intros (pre & lbl & post & -> & Hl).
    assert (bool_decide (is_Some (lit_k true l (lbl ++ post))) = true) as Hhere
      by (apply bool_decide_eq_true; rewrite (lit_k_complete _ _ _ _ Hl); eauto).
    induction pre as [|a pre IH]; simpl.
    + destruct (lbl ++ post); simpl in *; by rewrite Hhere.
    + rewrite IH. apply orb_true_r.
Qed.

Lemma mentions_rating_spec text : mentions_rating text = true ↔ has_rating_label text.
Proof. apply occurs_ci_spec. Qed.

Lemma mentions_summary_spec text :
  mentions_summary text = true ↔ has_summary_label text.
Proof.
  unfold mentions_summary, has_summary_label, is_summary_label.
  rewrite orb_true_iff, !occurs_ci_spec. naive_solver.
Qed.

(** C5, as the code has it.  The rating pattern matches at the leftmost place where
    the label [Rating:], in any letter case and possibly after [Numeric ],
    is followed by optional white space, at most one asterisk and a run of
    digits; capture 1 is that whole run (what follows it, a slash and
    digits or anything else, is ignored).  The rating is the value of the
    run when it is at most 10 and [0] otherwise; a response with no such
    place is rated [0], so a nonzero rating always comes from such a place
    and lies between 1 and 10. *)
Theorem rating_is_read_after_the_label (text : jsstring) :
  ratingMatch text ≠ Some None
  ∧ (∀ ds, ratingMatch text = Some (Some ds) ↔ leftmost rating_place text ds)
  ∧ (∀ ds, leftmost rating_place text ds →
           rating_of text = if digits_value ds <=? 10 then digits_value ds else 0)
  ∧ (¬ somewhere rating_place text → rating_of text = 0)
  ∧ (rating_of text ≠ 0 →
     ∃ ds, leftmost rating_place text ds
           ∧ rating_of text = digits_value ds ∧ 1 ≤ digits_value ds ≤ 10).
Proof.
  split_and!.
  - intros (ds & [=] & _)%ratingMatch_Some.
  - intros ds. rewrite ratingMatch_Some. naive_solver.
  - apply rating_of_found.
  - apply rating_of_nowhere.
  - intros Hnz. destruct (ratingMatch text) as [m|] eqn:E.
    + apply ratingMatch_Some in E as (ds & -> & Hl). exists ds. split; [done|].
      pose proof (rating_of_found _ _ Hl) as Hr.
      pose proof (rating_of_range text).
      destruct (digits_value ds <=? 10) eqn:E; [|congruence].
      apply Z.leb_le in E. lia.
    + unfold rating_of in Hnz. by rewrite E in Hnz.
Qed.

(** C6.  Rating and summary are read independently of each other.  A
    response in which the label [Rating:] does not occur is rated [0].  The
    summary pattern fails to match exactly when no summary label
    ([Summary:] or [Summarized Report:], in any letter case) occurs, and
    the summary is then the fixed fallback sentence; when a label occurs,
    the summary is the trimmed text that follows the leftmost label, after
    any white space, up to the end of the line, whether or not a rating was
    found. *)
Theorem rating_and_summary_are_read_independently (text : jsstring) :
  (mentions_rating text = false → rating_of text = 0)
  ∧ (mentions_summary text = false →
     summary_of text = Normal (lit "Could not parse summary from LLM response."))
  ∧ (mentions_summary text = true →
     ∃ cap, leftmost summary_place text cap ∧ summary_of text = Normal (trim cap))
  ∧ (summaryMatch text = None ↔ mentions_summary text = false).
Proof.
  assert (summaryMatch text = None ↔ mentions_summary text = false) as Hnone.
  { rewrite summaryMatch_None, somewhere_summary, <-mentions_summary_spec.
    by destruct (mentions_summary text). }
  split_and!; [| | |done].
  - intros Hm. apply rating_of_nowhere. intros Hs%somewhere_rating.
    apply mentions_rating_spec in Hs. congruence.
  - intros Hm%Hnone. unfold summary_of. by rewrite Hm.
  - intros Hm. unfold summary_of.
    destruct (summaryMatch text) as [m|] eqn:E.
    + apply summaryMatch_Some in E as (cap & -> & Hl). by exists cap.
    + destruct Hnone as [Hn _]. rewrite (Hn eq_refl) in Hm. done.
Qed.

(** The response [Rating: *7/10] is rated 7, though an asterisk stands
    between the label and the integer. *)
Lemma asterisk_before_the_integer_is_rated : ¬ only_stated_shape_is_rated.
Proof.
  intros H. specialize (H (lit "Rating: *7/10")).
  assert (rating_of (lit "Rating: *7/10") = 7) as Hr by (by vm_compute).
  assert (stated_rating_shape (lit "Rating: *7/10") = false) as Hs by (by vm_compute).
  rewrite Hr, Hs in H. by discriminate H.
Qed.

(** ** Reports of the scorer *)

(** String literals and the pure parts of the program stay folded while the
    monadic code is unfolded. *)
Arguments lit : simpl never.
Arguments rating_of : simpl never.
Arguments summary_of : simpl never.
Arguments prompt_text : simpl never.
Arguments truncated : simpl never.
Arguments effectiveResumeLink : simpl never.
Arguments nat_to_jsstring : simpl never.
Arguments to_jsstring : simpl never.
Arguments closing_report : simpl never.

Lemma summary_of_normal t : ∃ s, summary_of t = Normal s.
Proof.
  unfold summary_of. destruct (summaryMatch t) as [m|] eqn:E; [|by eexists].
  apply summaryMatch_Some in E as (cap & -> & _). by eexists.
Qed.

Lemma counted_spec r s :
  0 ≤ r → counted (Score r s) = negb (unconfigured_report r s).
Proof.
  intros Hr. unfold counted, unconfigured_report, not_configured. simpl.
  rewrite Z.gtb_ltb.
  destruct (Z.ltb_spec 0 r); repeat case_bool_decide; simpl; try done;
    exfalso; naive_solver lia.
Qed.

(** ** Rows of the report *)

Lemma job_description_part_throws txtData e :
  job_description_part txtData = Throws e → ¬ well_formed_text txtData.
Proof. intros H [? ?]. by destruct txtData. Qed.

Lemma processedRow_status row c r s :
  processedRow row c r s !! lit "pdfExtractionStatus"
  = Some (VStr (if has_text c then lit "Success" else lit "Failed")).
Proof.
  unfold processedRow.
  rewrite lookup_insert_ne by (by vm_compute).
  rewrite lookup_insert_ne by (by vm_compute).
  by rewrite lookup_insert_eq.
Qed.

Lemma processedRow_Rating row c r s :
  processedRow row c r s !! lit "Rating" = Some (VNum r).
Proof.
  unfold processedRow.
  rewrite lookup_insert_ne by (by vm_compute).
  by rewrite lookup_insert_eq.
Qed.

Lemma processedRow_Summary row c r s :
  processedRow row c r s !! lit "Summary" = Some (VStr s).
Proof. unfold processedRow. by rewrite lookup_insert_eq. Qed.

Lemma success_processedRow row c r s : success (processedRow row c r s) = has_text c.
Proof.
  unfold success. rewrite processedRow_status.
  destruct (has_text c); [by rewrite bool_decide_eq_true_2|].
  rewrite bool_decide_eq_false_2; [done|]. by vm_compute.
Qed.


Lemma analysed_processedRow row c r s :
  analysed (processedRow row c r s) = has_text c && negb (unconfigured_report r s).
Proof.
  unfold analysed, unconfigured_report.
  rewrite success_processedRow, processedRow_Rating, processedRow_Summary.
  f_equal. f_equal. apply bool_decide_ext. naive_solver.
Qed.

Opaque lit.

(** ** Runs of the program *)

Section Runs.

Context {W : Type} (env : world W).

Implicit Types (σ : state (W:=W)).

Lemma continues_refl σ : continues σ σ [].
Proof. unfold continues. by rewrite app_nil_r. Qed.

Lemma continues_trans σ1 σ2 σ3 e1 e2 :
  continues σ1 σ2 e1 → continues σ2 σ3 e2 → continues σ1 σ3 (e1 ++ e2).
Proof. unfold continues. intros H1 H2. by rewrite H2, H1, (assoc_L (++)). Qed.

Ltac run_in H :=
  unfold bind, try_catch, ret, throw, lift, emit, set_vars, get_vars, record,
    fetch, pdfParse, generateContent, arrayBuffer in H;
  simpl in H.

Ltac run_all :=
  repeat (progress (unfold bind, try_catch, ret, throw, lift, emit, set_vars,
                      get_vars, record, fetch, pdfParse, generateContent,
                      arrayBuffer in *; simpl in *; simplify_eq)
          || case_match).

Lemma extractPdfData_spec resume_link σ o σ' :
  extractPdfData env resume_link σ = (o, σ') →
  vars σ' = vars σ
  ∧ (∃ evs, continues σ σ' evs
            ∧ Forall (λ ev, is_emit ev = false ∧ is_generate ev = false) evs
            ∧ (truthy resume_link = false → evs = []))
  ∧ match o with
    | Normal c => ∀ t, text c = Some t → t ≠ [] ∧ trim t ≠ []
    | Throws _ => truthy resume_link = true ∧ ∀ s, resume_link ≠ VStr s
    end.
Proof.
  unfold extractPdfData, resolve. intros H.
  destruct (truthy resume_link) eqn:Ht; simpl in H.
  2:{ run_in H. simplify_eq. split; [done|]. split; [|done].
      exists []. split; [apply continues_refl|]. by split. }
  destruct resume_link as [| |b|z|link]; try done.
  1,2: run_in H; simplify_eq; (split; [done|]);
       (split; [exists []; split; [apply continues_refl|by split]|]);
       by split.
  unfold continues. run_all.
  all: (split; [done|]);
    (split; [eexists; split;
               [by rewrite <-?(assoc_L (++))|split; [by repeat constructor|done]]|]);
    try done.
  intros t [= <-].
  match goal with
  | H : _ && _ = true |- _ => apply andb_true_iff in H as [Hne Hlen]
  end.
  apply negb_true_iff, bool_decide_eq_false in Hne. split; [done|].
  apply Nat.ltb_lt in Hlen. intros E. rewrite E in Hlen. simpl in Hlen. lia.
Qed.

Lemma compareWithLLM_spec model c jd σ o σ' :
  compareWithLLM env model c jd σ = (o, σ') →
  vars σ' = vars σ
  ∧ (∃ evs, continues σ σ' evs
            ∧ Forall (λ ev, is_emit ev = false ∧ is_fetch ev = false) evs
            ∧ (model = None → evs = []))
  ∧ match o with
    | Normal sr => 0 ≤ rating sr ≤ 10 ∧ (model = None → sr = Score 0 not_configured)
    | Throws e => job_description_part jd = Throws e
    end.
Proof.
  unfold compareWithLLM, continues. intros H.
  destruct model as [g|]; [|run_all; split; [done|]; split;
    [exists []; by rewrite app_nil_r|done]].
  destruct (has_text c) eqn:Hc; simpl in H;
    [|run_all; split; [done|]; split; [exists []; by rewrite app_nil_r|done]].
  pose proof (rating_of_range) as Hr.
  destruct (job_description_part jd) as [j|e] eqn:Hj;
    [|run_all; split; [done|]; split; [exists []; by rewrite app_nil_r|done]].
  run_all.
  all: (split; [done|]);
    (split; [eexists; split; [by rewrite <-?(assoc_L (++))|
                              split; [by repeat constructor|done]]|]);
    done.
Qed.

Lemma has_text_spec c :
  (∀ t, text c = Some t → t ≠ [] ∧ trim t ≠ []) →
  has_text c = true ↔ ∃ t, text c = Some t ∧ trim t ≠ [].
Proof.
  intros Hinv. unfold has_text. destruct (text c) as [t|] eqn:E.
  - destruct (Hinv t eq_refl) as [Hne Htr]. rewrite bool_decide_eq_false_2 by done.
    naive_solver.
  - naive_solver.
Qed.

Lemma locals_eta v :
  Locals (processedResumes v) (successfulExtractions v) (successfulLLMCalls v) = v.
Proof. by destruct v. Qed.

Lemma acquisition_spec email resume_link σ o σ' :
  acquisition env email resume_link σ = (o, σ') →
  (∃ evs, continues σ σ' evs
          ∧ Forall (λ ev, is_terminal ev = false ∧ is_generate ev = false) evs
          ∧ (truthy resume_link = false →
             Forall (λ ev, is_fetch ev = false) evs))
  ∧ match o with
    | Normal c =>
        vars σ' = bump_extractions (vars σ) (has_text c)
        ∧ (∀ t, text c = Some t → t ≠ [] ∧ trim t ≠ [])
        ∧ (truthy resume_link = false → c = Content None)
    | Throws _ => truthy resume_link = true ∧ ∀ s, resume_link ≠ VStr s
    end.
Proof.
  unfold acquisition, continues. intros H.
  destruct (truthy resume_link) eqn:Ht.
  - unfold bind at 1 in H. unfold emit in H. unfold bind at 1 in H.
    destruct (extractPdfData env resume_link _) as [o1 σ1] eqn:E.
    apply extractPdfData_spec in E as (Hv & (evs & Hc & Hq & _) & Ho).
    unfold continues in Hc. simpl in Hc.
    destruct o1 as [c|e]; simpl in H.
    + destruct (has_text c) eqn:Hc'; run_all.
      all: split; [eexists; split; [by rewrite Hc, <-(assoc_L (++))|
                   split; [|done]]|].
      all: try (constructor; [done|]; eapply Forall_impl; [done|]; by intros [] []).
      all: rewrite ?Hv; unfold bump_extractions; rewrite Hc'; simpl;
        rewrite ?Nat.add_1_r, ?Nat.add_0_r, ?locals_eta; done.
    + simplify_eq. split; [|by destruct Ho].
      eexists; split; [by rewrite Hc, <-(assoc_L (++))|split; [|done]].
      constructor; [done|]. eapply Forall_impl; [done|]. by intros [] [].
  - run_all. split.
    + eexists. split; [done|]. split; by repeat constructor.
    + unfold bump_extractions. simpl. by rewrite Nat.add_0_r, locals_eta.
Qed.

Lemma scoring_spec model email c txtData σ o σ' :
  scoring env model email c txtData σ = (o, σ') →
  (∃ evs, continues σ σ' evs
          ∧ Forall (λ ev, is_terminal ev = false ∧ is_fetch ev = false
                          ∧ (model = None → is_generate ev = false)) evs
          ∧ (has_text c = false → evs = []))
  ∧ match o with
    | Normal (r, s) =>
        vars σ' = bump_calls (vars σ) (has_text c && negb (unconfigured_report r s))
        ∧ 0 ≤ r ≤ 10
        ∧ (has_text c = false → r = 0 ∧ s = skipped)
        ∧ (model = None → r = 0 ∧ (has_text c = true → s = not_configured))
        ∧ (has_text c = true →
           ∃ σ1 σ2, compareWithLLM env model c txtData σ1 = (Normal (Score r s), σ2))
    | Throws e => job_description_part txtData = Throws e
    end.
Proof.
  unfold scoring, continues. intros H.
  destruct (has_text c) eqn:Hc.
  - unfold bind at 1 in H. unfold emit in H. unfold bind at 1 in H.
    destruct (compareWithLLM env model c txtData _) as [o1 σ1] eqn:E.
    pose proof E as E'.
    apply compareWithLLM_spec in E as (Hv & (evs & Hc' & Hq & Hnone) & Ho).
    unfold continues in Hc'. simpl in Hc'.
    assert (Forall (λ ev, is_terminal ev = false ∧ is_fetch ev = false
                          ∧ (model = None → is_generate ev = false))
              (EvEmit (processingUpdate None
                 (lit "Analyzing resume " ++ to_jsstring email
                  ++ lit " with Gemini LLM...")) :: evs)) as HF.
    { constructor; [done|]. apply Forall_forall. intros ev Hev.
      rewrite Forall_forall in Hq. destruct (Hq ev Hev) as [He Hf].
      split; [by destruct ev|]. split; [done|].
      intros Hm. rewrite (Hnone Hm) in Hev. by apply elem_of_nil in Hev. }
    destruct o1 as [[r s]|e]; simpl in H.
    + destruct Ho as [Hr Hm]. simpl in Hr.
      assert (counted (Score r s) = negb (unconfigured_report r s)) as Hcount
        by (apply counted_spec; lia).
      destruct (counted (Score r s)) eqn:Hcnt; run_all.
      all: split; [eexists; split; [by rewrite Hc', <-(assoc_L (++))|
                   split; [done|done]]|].
      all: rewrite ?Hv; unfold bump_calls; rewrite <-Hcount; simpl;
        rewrite ?Nat.add_1_r, ?Nat.add_0_r, ?locals_eta.
      all: split; [done|]; split; [done|]; split; [done|]; split;
        [intros Hn; specialize (Hm Hn); by simplify_eq|eauto].
    + simplify_eq. split; [|done].
      eexists; split; [by rewrite Hc', <-(assoc_L (++))|by split].
  - run_all. split; [exists []; by rewrite app_nil_r|].
    unfold bump_calls. simpl. rewrite Nat.add_0_r, locals_eta.
    repeat split; done.
Qed.

Lemma loop_body_spec model n txtData i row σ o σ' :
  loop_body env model n txtData i row σ = (o, σ') →
  (∃ evs, continues σ σ' evs ∧ Forall (quiet model) evs)
  ∧ match o with
    | Normal _ =>
        ∃ res, row_outcome model row res
               ∧ vars σ' = Locals (processedResumes (vars σ) ++ [res])
                             (successfulExtractions (vars σ) + Nat.b2n (success res))
                             (successfulLLMCalls (vars σ) + Nat.b2n (analysed res))
               ∧ ∃ c σ2,
                   acquisition env (email_of i row) (field row "resume_link")
                     (announced n i row σ)
                   = (Normal c, σ2)
                   ∧ ∃ r s, res = processedRow row c r s
    | Throws _ => ¬ well_formed_row row ∨ ¬ well_formed_text txtData
    end.
Proof.
  unfold loop_body, continues. intros H.
  destruct row as [| |fields];
    [run_all; (split; [by exists []; rewrite app_nil_r|]); left;
     by intros (? & ? & _)..|].
  unfold get_field in H. unfold bind at 1 2 3 in H. unfold ret at 1 2, emit in H.
  set (email := or_else _ _) in H.
  set (link := default VUndefined (fields !! lit "resume_link")) in H.
  unfold bind at 1 in H.
  destruct (acquisition env email link _) as [o1 σ1] eqn:E1.
  pose proof E1 as E1'.
  apply acquisition_spec in E1 as ((ev1 & Hc1 & Hq1 & _) & Ho1).
  unfold continues in Hc1. simpl in Hc1.
  assert (Forall (quiet model) ev1) as Hq1'.
  { eapply Forall_impl; [done|]. intros ev [? ?]. by split. }
  destruct o1 as [c|e]; simpl in H.
  2:{ simplify_eq. split.
      - eexists. split; [by rewrite Hc1, <-(assoc_L (++))|].
        constructor; [by split|done].
      - left. intros (f & [= <-] & [Hf|[s Hs]]); destruct Ho1 as [Ht Hns].
        + unfold field in Hf. simpl in Hf. fold link in Hf. congruence.
        + by destruct (Hns s). }
  destruct Ho1 as (Hv1 & Hinv & Hlink).
  unfold bind at 1 in H.
  destruct (scoring env model email c txtData σ1) as [o2 σ2] eqn:E2.
  apply scoring_spec in E2 as ((ev2 & Hc2 & Hq2 & _) & Ho2).
  unfold continues in Hc2.
  assert (Forall (quiet model) ev2) as Hq2'.
  { eapply Forall_impl; [done|]. intros ev (? & ? & ?). by split. }
  destruct o2 as [[r s]|e]; simpl in H.
  2:{ simplify_eq. split; [|right; by eapply job_description_part_throws].
      eexists. split; [by rewrite Hc2, Hc1, <-!(assoc_L (++))|].
      constructor; [by split|]. by apply Forall_app. }
  destruct Ho2 as (Hv2 & Hr & Hskip & Hnone & _).
  run_all. split.
  { eexists. split; [by rewrite Hc2, Hc1, <-!(assoc_L (++))|].
    constructor; [by split|]. by apply Forall_app. }
  exists (processedRow (RowObject fields) c r s). split.
  { exists c, r, s. split_and!; eauto; lia. }
  split; [by rewrite Hv2, Hv1, success_processedRow, analysed_processedRow|].
  exists c, σ1. split; [exact E1'|by eauto].
Qed.

Lemma for_rows_spec model n txtData rows : ∀ i σ o σ',
  for_rows env model n txtData i rows σ = (o, σ') →
  (∃ evs, continues σ σ' evs ∧ Forall (quiet model) evs)
  ∧ match o with
    | Normal _ =>
        ∃ results, Forall2 (row_outcome model) rows results
           ∧ vars σ' = Locals (processedResumes (vars σ) ++ results)
                         (successfulExtractions (vars σ) + count success results)
                         (successfulLLMCalls (vars σ) + count analysed results)
    | Throws _ => ¬ Forall well_formed_row rows ∨ ¬ well_formed_text txtData
    end.
Proof.
  induction rows as [|row rows IH]; intros i σ o σ' H; simpl in H.
  - run_all. split; [exists []; split; [apply continues_refl|done]|].
    exists []. split; [done|]. simpl. by rewrite app_nil_r, !Nat.add_0_r, locals_eta.
  - unfold bind at 1 in H.
    destruct (loop_body env model n txtData i row σ) as [o1 σ1] eqn:E1.
    apply loop_body_spec in E1 as ((ev1 & Hc1 & Hq1) & Ho1).
    destruct o1 as [[]|e].
    2:{ simplify_eq. split; [by eauto|]. destruct Ho1 as [Hr|Ht]; [left|by right].
        intros HF. by apply Forall_cons in HF as [? _]. }
    destruct Ho1 as (res & Hres & Hv1 & _).
    apply IH in H as ((ev2 & Hc2 & Hq2) & Ho2).
    split.
    { exists (ev1 ++ ev2). split; [by eapply continues_trans|by apply Forall_app]. }
    destruct o as [[]|e].
    2:{ destruct Ho2 as [Hr|Ht]; [left|by right].
        intros HF. by apply Forall_cons in HF as [_ ?]. }
    destruct Ho2 as (results & HF & Hv2).
    exists (res :: results). split; [by constructor|].
    rewrite Hv2, Hv1. simpl. rewrite <-(assoc_L (++)). simpl. f_equal; lia.
Qed.

Lemma run_job_unfold model csvData txtData w :
  run_job env model csvData txtData w
  = match orchestration env model csvData txtData (job_start w) with
    | (Normal a, σ') => (Normal a, σ')
    | (Throws e, σ') =>
        (Normal tt,
         State (outside σ')
           (trace σ' ++ [EvEmit (processingError generic_message (message e))])
           (vars σ'))
    end.
Proof. reflexivity. Qed.

Lemma orchestration_spec model csvData txtData σ o σ' :
  orchestration env model csvData txtData σ = (o, σ') →
  match o with
  | Normal _ =>
      ∃ rows evs results,
        csvData = BatchArray rows
        ∧ Forall (quiet model) evs
        ∧ Forall2 (row_outcome model) rows results
        ∧ vars σ' = Locals (processedResumes (vars σ) ++ results)
                      (successfulExtractions (vars σ) + count success results)
                      (successfulLLMCalls (vars σ) + count analysed results)
        ∧ trace σ' = trace σ ++ evs
            ++ [EvEmit (processingComplete (processedResumes (vars σ'))
                          (closing_report (successfulExtractions (vars σ'))
                                          (successfulLLMCalls (vars σ'))))]
  | Throws _ =>
      (∃ evs, continues σ σ' evs ∧ Forall (quiet model) evs)
      ∧ ∀ rows, csvData = BatchArray rows →
                ¬ Forall well_formed_row rows ∨ ¬ well_formed_text txtData
  end.
Proof.
  unfold orchestration, batch_rows. intros H.
  destruct csvData as [| |rows];
    [by run_all; split; [exists []; split; [apply continues_refl|]|]..|].
  unfold bind at 1 in H. unfold ret at 1 in H. unfold bind at 1 in H.
  destruct (for_rows env model (length rows) txtData 0 rows σ) as [o1 σ1] eqn:E1.
  apply for_rows_spec in E1 as ((ev1 & Hc1 & Hq1) & Ho1).
  unfold continues in Hc1.
  destruct o1 as [[]|e]; [|simplify_eq; split; [by eauto|by intros ? [= <-]]].
  destruct Ho1 as (results & HF & Hv). run_all.
  exists rows, (ev1 ++ [EvEmit (processingUpdate (Some (lit "converting to csv"))
                  (lit "All resumes processed. Generating final CSV..."))]), results.
  split_and!; try done.
  - apply Forall_app. split; [done|]. by repeat constructor.
  - by rewrite Hc1, <-!(assoc_L (++)).
Qed.

End Runs.

(** ** Jobs *)

Section Jobs.

Context {W : Type} (env : world W).

Lemma quiet_started model : quiet model started.
Proof. by split. Qed.

Lemma run_job_spec model csvData txtData w :
  ∃ progress final,
    trace (run_job env model csvData txtData w).2 = progress ++ [EvEmit final]
    ∧ Forall (quiet model) progress
    ∧ match orchestration env model csvData txtData (job_start w) with
      | (Normal _, _) =>
          ∃ rows results,
            csvData = BatchArray rows
            ∧ Forall2 (row_outcome model) rows results
            ∧ final = processingComplete results
                        (closing_report (count success results)
                                        (count analysed results))
      | (Throws e, _) =>
          final = processingError generic_message (message e)
          ∧ ∀ rows, csvData = BatchArray rows →
                    ¬ Forall well_formed_row rows ∨ ¬ well_formed_text txtData
      end.
Proof.
  rewrite run_job_unfold.
  destruct (orchestration env model csvData txtData (job_start w)) as [o σ'] eqn:E.
  apply orchestration_spec in E. destruct o as [[]|e].
  - destruct E as (rows & evs & results & -> & Hq & HF & Hv & Htr).
    rewrite Hv in Htr. simpl in Htr.
    eexists (started :: evs), _. simpl. split; [exact Htr|].
    split; [constructor; [apply quiet_started|done]|]. by exists rows, results.
  - destruct E as ((evs & Hc & Hq) & Hwf). unfold continues in Hc. simpl in Hc.
    eexists (started :: evs), _. simpl. rewrite Hc. split; [done|].
    split; [constructor; [apply quiet_started|done]|done].
Qed.

Lemma completed_inv model csvData txtData w finalData report :
  EvEmit (processingComplete finalData report)
    ∈ trace (run_job env model csvData txtData w).2 →
  ∃ rows, csvData = BatchArray rows
          ∧ Forall2 (row_outcome model) rows finalData
          ∧ report = closing_report (count success finalData)
                                    (count analysed finalData).
Proof.
  destruct (run_job_spec model csvData txtData w) as (progress & final & -> & Hq & Hm).
  intros [Hin|Hin%list_elem_of_singleton]%elem_of_app.
  - rewrite Forall_forall in Hq. by destruct (Hq _ Hin) as [? _].
  - destruct (orchestration env model csvData txtData (job_start w)) as [[[]|e] σ'].
    + destruct Hm as (rows & results & -> & HF & ->). simplify_eq. by exists rows.
    + destruct Hm as [-> _]. done.
Qed.

End Jobs.

Lemma final_report_elem tr finalData report :
  final_report tr = Some (finalData, report) →
  EvEmit (processingComplete finalData report) ∈ tr.
Proof.
  unfold final_report. destruct (last tr) as [ev|] eqn:E; [|done].
  apply last_Some in E as [tr' ->]. intros H.
  destruct ev as [| | |[]]; simplify_eq. apply elem_of_app. right. by left.
Qed.

Lemma row_outcome_result_for model row res :
  row_outcome model row res → result_for row res.
Proof.
  intros (c & r & s & -> & [fields ->] & _).
  exists fields, (if has_text c then lit "Success" else lit "Failed"), r, s.
  split; [done|]. split; [done|]. destruct (has_text c); eauto.
Qed.

(** ** The properties of the specification *)

Section Claims.

Context {W : Type} (env : world W).

Lemma job_completes model rows txtData w :
  well_formed_text txtData → Forall well_formed_row rows →
  ∃ finalData report,
    final_report (trace (run_job env model (BatchArray rows) txtData w).2)
    = Some (finalData, report).
Proof.
  intros Ht Hr.
  destruct (run_job_spec env model (BatchArray rows) txtData w)
    as (progress & final & Htr & _ & Hm).
  rewrite Htr. unfold final_report. rewrite last_snoc.
  destruct (orchestration env model (BatchArray rows) txtData (job_start w))
    as [[[]|e] σ'].
  - destruct Hm as (? & results & _ & _ & ->). by eauto.
  - destruct Hm as [_ Hbad]. by destruct (Hbad rows eq_refl).
Qed.

Lemma final_report_inv model csvData txtData w finalData report :
  final_report (trace (run_job env model csvData txtData w).2)
  = Some (finalData, report) →
  ∃ rows, csvData = BatchArray rows
          ∧ Forall2 (row_outcome model) rows finalData
          ∧ report = closing_report (count success finalData)
                                    (count analysed finalData).
Proof. intros H%final_report_elem. by eapply completed_inv. Qed.

(** C1.  For a submitted batch of [n] records, the report a job ends with
    holds exactly [n] result rows, the i-th one built from the i-th record
    (the record's own fields, with extraction status, rating and summary
    set), in input order, whatever the network, the PDF parser and the
    scoring backend answer for any row.  A job whose rows are objects with
    a string or absent link, and whose job description is present, always
    ends with such a report: no failure of a row's fetch, extraction or
    scoring raises an exception. *)
Theorem report_has_one_result_per_record model rows txtData w :
  (well_formed_text txtData → Forall well_formed_row rows →
   ∃ finalData report,
     final_report (trace (run_job env model (BatchArray rows) txtData w).2)
     = Some (finalData, report))
  ∧ (∀ finalData report,
       final_report (trace (run_job env model (BatchArray rows) txtData w).2)
       = Some (finalData, report) →
       length finalData = length rows ∧ Forall2 result_for rows finalData).
Proof.
  split; [apply job_completes|].
  intros finalData report (rows' & [= <-] & HF & _)%final_report_inv.
  split; [symmetry; by eapply Forall2_length|].
  eapply Forall2_impl; [done|]. apply row_outcome_result_for.
Qed.

(** C3.  In every completed turn of the loop, the row appended to the
    report has extraction status ["Success"] exactly when the content that
    the acquisition phase of that turn returned has a text that is present
    and non-empty after trimming, and ["Failed"] exactly when it has not. *)
Theorem extraction_status_reflects_text model n txtData i row σ σ' :
  loop_body env model n txtData i row σ = (Normal tt, σ') →
  ∃ c σ2 res,
    acquisition env (email_of i row) (field row "resume_link") (announced n i row σ)
    = (Normal c, σ2)
    ∧ processedResumes (vars σ') = processedResumes (vars σ) ++ [res]
    ∧ (res !! lit "pdfExtractionStatus" = Some (VStr (lit "Success"))
       ↔ ∃ t, text c = Some t ∧ trim t ≠ [])
    ∧ (res !! lit "pdfExtractionStatus" = Some (VStr (lit "Failed"))
       ↔ ¬ ∃ t, text c = Some t ∧ trim t ≠ []).
Proof.
  intros H. apply loop_body_spec in H as (_ & res & _ & Hv & c & σ2
                                          & Hacq & r & s & ->).
  exists c, σ2, (processedRow row c r s).
  split; [done|]. split; [by rewrite Hv|].
  apply acquisition_spec in Hacq as (_ & _ & Hinv & _).
  rewrite processedRow_status, <-(has_text_spec c Hinv).
  destruct (has_text c); split; split; try done; intros [=];
    exfalso; revert H0; by vm_compute.
Qed.

Lemma loop_body_without_link model n txtData i fields σ :
  truthy (field (RowObject fields) "resume_link") = false →
  ∃ u1 u2,
    loop_body env model n txtData i (RowObject fields) σ
    = (Normal tt,
       State (outside σ)
         (trace σ ++ [EvEmit (processingUpdate None u1);
                      EvEmit (processingUpdate None u2)])
         (Locals (processedResumes (vars σ)
                    ++ [processedRow (RowObject fields) (Content None) 0 skipped])
                 (successfulExtractions (vars σ)) (successfulLLMCalls (vars σ)))).
Proof.
  unfold field. simpl. intros Hl.
  unfold loop_body, get_field, bind, ret, emit, record. simpl.
  unfold acquisition. rewrite Hl.
  unfold scoring, bind, ret, emit, set_vars, record. simpl.
  rewrite <-(assoc_L (++)). by eauto.
Qed.

(** C7.  For a row whose document link is absent or empty (or otherwise
    falsy), the turn of the loop makes no call to the outside at all: the
    events it adds hold no fetch and no backend call and the world is left
    as it was.  The row it appends has extraction status ["Failed"], rating
    [0] and the fixed skip summary, and this very row is found at the
    record's index in the report of every job that completes. *)
Theorem row_without_link_is_skipped model fields
    (Hlink : truthy (field (RowObject fields) "resume_link") = false) :
  (∀ n txtData i σ, ∃ σ' evs,
      loop_body env model n txtData i (RowObject fields) σ = (Normal tt, σ')
      ∧ trace σ' = trace σ ++ evs
      ∧ Forall (λ ev, is_fetch ev = false ∧ is_generate ev = false) evs
      ∧ outside σ' = outside σ
      ∧ processedResumes (vars σ')
        = processedResumes (vars σ)
            ++ [processedRow (RowObject fields) (Content None) 0 skipped])
  ∧ (∀ rows txtData w i finalData report,
       rows !! i = Some (RowObject fields) →
       final_report (trace (run_job env model (BatchArray rows) txtData w).2)
       = Some (finalData, report) →
       finalData !! i
       = Some (processedRow (RowObject fields) (Content None) 0 skipped))
  ∧ (let res := processedRow (RowObject fields) (Content None) 0 skipped in
     res !! lit "pdfExtractionStatus" = Some (VStr (lit "Failed"))
     ∧ res !! lit "Rating" = Some (VNum 0)
     ∧ res !! lit "Summary"
       = Some (VStr (lit "LLM analysis skipped due to no extracted PDF text."))).
Proof.
  split; [|split].
  - intros n txtData i σ.
    destruct (loop_body_without_link model n txtData i fields σ Hlink)
      as (u1 & u2 & ->).
    eexists _, _. split; [done|]. simpl. split; [done|].
    split; [by repeat constructor|done].
  - intros rows txtData w i finalData report Hi
      (rows' & [= <-] & HF & _)%final_report_inv.
    destruct (Forall2_lookup_l _ _ _ _ _ HF Hi) as (res & Hres & Hout).
    rewrite Hres. f_equal.
    destruct Hout as (c & r & s & -> & _ & _ & _ & Hskip & _ & Hc).
    rewrite (Hc Hlink) in *. by destruct (Hskip eq_refl) as [-> ->].
  - simpl. by rewrite processedRow_status, processedRow_Rating, processedRow_Summary.
Qed.

(** C8.  Every job emits exactly one terminal event, and emits it last:
    all events before it are progress.  When the body of the [try] block
    ends normally it is [processingComplete] with the full report: one
    result row for every submitted record, in order, each the record's own
    fields with the three result fields set, and the closing message that
    counts the extracted and the analysed rows.  When that body raises an
    exception it is [processingError] with the generic message and the
    message of the exception, so that no [processingComplete] and no
    partial report is sent. *)
Theorem exactly_one_terminal_event model csvData txtData w :
  ∃ progress final,
    trace (run_job env model csvData txtData w).2 = progress ++ [EvEmit final]
    ∧ Forall (λ ev, is_terminal ev = false) progress
    ∧ is_terminal (EvEmit final) = true
    ∧ match orchestration env model csvData txtData (job_start w) with
      | (Normal _, _) =>
          ∃ rows results,
            csvData = BatchArray rows
            ∧ length results = length rows
            ∧ Forall2 result_for rows results
            ∧ final = processingComplete results
                        (lit "Successfully extracted text from "
                         ++ nat_to_jsstring (count success results)
                         ++ lit " PDFs and ran "
                         ++ nat_to_jsstring (count analysed results)
                         ++ lit " LLM analyses.")
      | (Throws e, _) =>
          final = processingError
                    (lit "An error occurred during backend processing. Check server logs.")
                    (message e)
      end.
Proof.
  destruct (run_job_spec env model csvData txtData w)
    as (progress & final & Htr & Hq & Hm).
  exists progress, final. split; [exact Htr|].
  split; [eapply Forall_impl; [exact Hq|]; by intros ev [? _]|].
  destruct (orchestration env model csvData txtData (job_start w)) as [[[]|e] σ'].
  - destruct Hm as (rows & results & -> & HF & ->). split; [done|].
    exists rows, results. split; [done|].
    split; [symmetry; by eapply Forall2_length|].
    split; [|done]. eapply Forall2_impl; [exact HF|]. apply row_outcome_result_for.
  - by destruct Hm as [-> _].
Qed.


(** C10.  When a row is scored, the counter of LLM analyses grows by one
    unless the report that [compareWithLLM] returned is exactly rating [0]
    with summary ["LLM not configured."]; the closing message of a completed
    job cites the number of ["Success"] rows and the number of such
    analysed rows.  In particular a scored row that carries the report of a
    failed backend call, rating [0] and
    ["Failed to get LLM report due to API error."], is counted. *)
Theorem backend_failures_count_as_analyses model :
  (∀ email c txtData σ r s σ',
     scoring env model email c txtData σ = (Normal (r, s), σ') →
     has_text c = true →
     (∃ σ1 σ2, compareWithLLM env model c txtData σ1 = (Normal (Score r s), σ2))
     ∧ successfulLLMCalls (vars σ')
       = (successfulLLMCalls (vars σ)
          + (if bool_decide (Score r s = Score 0 (lit "LLM not configured."))
             then 0 else 1))%nat)
  ∧ (∀ csvData txtData w finalData report,
       final_report (trace (run_job env model csvData txtData w).2)
       = Some (finalData, report) →
       report = lit "Successfully extracted text from "
                ++ nat_to_jsstring (count success finalData)
                ++ lit " PDFs and ran "
                ++ nat_to_jsstring (count analysed finalData)
                ++ lit " LLM analyses.")
  ∧ (∀ row c,
       has_text c = true →
       analysed (processedRow row c 0
                   (lit "Failed to get LLM report due to API error.")) = true).
Proof.
  split_and!.
  - intros email c txtData σ r s σ' H Hc.
    apply scoring_spec in H as (_ & Hv & Hr & _ & _ & Hcmp).
    split; [by apply Hcmp|]. rewrite Hv, Hc. simpl.
    unfold unconfigured_report, not_configured.
    repeat case_bool_decide; simpl; try done; exfalso; naive_solver.
  - by intros csvData txtData w finalData report (rows & -> & _ & ->)%final_report_inv.
  - intros row c Hc. rewrite analysed_processedRow, Hc. by vm_compute.
Qed.

(** C2.  The rating read from a raw backend response is an integer
    between 0 and 10: a captured number outside this range, a capture that
    does not parse, or no match at all gives [0].  Every result that
    [compareWithLLM] returns has its rating in this range, and for a text
    response of the backend the result is returned and its rating is the
    one read from that text. *)
Theorem scorer_rating_in_range :
  (∀ text, 0 ≤ rating_of text ≤ 10)
  ∧ (∀ text m1 r, ratingMatch text = Some (Some m1) → parseInt10 m1 = Some r →
                  ¬ (0 ≤ r ≤ 10) → rating_of text = 0)
  ∧ (∀ text m1, ratingMatch text = Some (Some m1) → parseInt10 m1 = None →
                rating_of text = 0)
  ∧ (∀ text, ratingMatch text = None → rating_of text = 0)
  ∧ (∀ model c jobDescription σ sr σ',
       compareWithLLM env model c jobDescription σ = (Normal sr, σ') →
       0 ≤ rating sr ≤ 10)
  ∧ (∀ g c jobDescription jd σ response w',
       has_text c = true →
       job_description_part jobDescription = Normal jd →
       llm_generate env (prompt_text (truncated (default [] (text c))) jd) (outside σ)
       = (GenerateText response, w') →
       ∃ sr σ',
         compareWithLLM env (Some g) c jobDescription σ = (Normal sr, σ')
         ∧ rating sr = rating_of response).
Proof.
  split_and!.
  - apply rating_of_range.
  - intros text m1 r Hm Hp Hr. unfold rating_of. rewrite Hm, Hp.
    case_bool_decide; [done|].
    destruct (Z.ltb_spec r 0); simpl; [done|].
    rewrite Z.gtb_ltb. destruct (Z.ltb_spec 10 r); [done|lia].
  - intros text m1 Hm Hp. unfold rating_of. rewrite Hm, Hp. by case_bool_decide.
  - intros text Hm. unfold rating_of. by rewrite Hm.
  - intros model c jd σ sr σ' H. by apply compareWithLLM_spec in H as (_ & _ & ? & _).
  - intros g c jobDescription jd σ response w' Hc Hj Hg.
    destruct (summary_of_normal response) as [s Hs].
    unfold compareWithLLM. rewrite Hc. simpl. rewrite Hj.
    unfold bind, lift, try_catch, generateContent, ret. rewrite Hg. simpl.
    rewrite Hs. by eauto.
Qed.

End Claims.

(** ** The properties on sample jobs *)

Lemma three_candidates_well_formed : Forall well_formed_row three_candidates.
Proof.
  repeat constructor; (eexists; split; [reflexivity|]); right; eexists;
    vm_compute; reflexivity.
Defined.

(** Three records, the second of which cannot be downloaded: three rows. *)
Lemma report_has_one_result_per_record_witness :
  ∃ finalData report,
    final_report
      (trace (run_job second_download_times_out sample_model
                (BatchArray three_candidates) (VStr (lit "Backend engineer"))
                0%nat).2)
    = Some (finalData, report)
    ∧ length finalData = 3%nat
    ∧ Forall2 result_for three_candidates finalData.
Proof.
  destruct (report_has_one_result_per_record second_download_times_out
              sample_model three_candidates (VStr (lit "Backend engineer")) 0%nat)
    as [Hdone Hrows].
  destruct (Hdone ltac:(by split) three_candidates_well_formed)
    as (finalData & report & Hf).
  exists finalData, report. split; [exact Hf|]. exact (Hrows _ _ Hf).
Defined.

Lemma scorer_rating_in_range_witness :
  ratingMatch (lit "Rating:11/10 Summary:Too good") = Some (Some (lit "11"))
  ∧ parseInt10 (lit "11") = Some 11
  ∧ rating_of (lit "Rating:11/10 Summary:Too good") = 0.
Proof.
  assert (ratingMatch (lit "Rating:11/10 Summary:Too good") = Some (Some (lit "11")))
    as Hm by (vm_compute; reflexivity).
  assert (parseInt10 (lit "11") = Some 11) as Hp by (vm_compute; reflexivity).
  split; [exact Hm|]. split; [exact Hp|].
  destruct (scorer_rating_in_range backend_down) as (_ & Hout & _).
  apply (Hout _ _ _ Hm Hp). lia.
Defined.

Lemma extraction_status_reflects_text_witness :
  let row := candidate "ada@example.org" "https://example.org/ada.pdf" in
  let run := loop_body backend_down sample_model 1 (VStr (lit "Backend engineer"))
               0 row (job_start tt) in
  run = (Normal tt, run.2)
  ∧ ∃ c σ2 res,
      acquisition backend_down (email_of 0 row) (field row "resume_link")
        (announced 1 0 row (job_start tt))
      = (Normal c, σ2)
      ∧ processedResumes (vars run.2) = processedResumes (vars (job_start tt)) ++ [res]
      ∧ (res !! lit "pdfExtractionStatus" = Some (VStr (lit "Success"))
         ↔ ∃ t, text c = Some t ∧ trim t ≠ [])
      ∧ (res !! lit "pdfExtractionStatus" = Some (VStr (lit "Failed"))
         ↔ ¬ ∃ t, text c = Some t ∧ trim t ≠ []).
Proof.
  intros row run.
  assert (run = (Normal tt, run.2)) as Hrun by (vm_compute; reflexivity).
  split; [exact Hrun|].
  exact (extraction_status_reflects_text backend_down _ _ _ _ _ _ _ Hrun).
Defined.

Lemma link_resolver_rewrites_share_links_only_witness :
  let link := lit "https://drive.google.com/file/d/1AbC_d-9/view?usp=sharing" in
  share_link link (lit "1AbC_d-9")
  ∧ effectiveResumeLink link
    = lit "https://drive.google.com/uc?export=download&id=1AbC_d-9"
  ∧ effectiveResumeLink (effectiveResumeLink link) = effectiveResumeLink link.
Proof.
  intros link.
  assert (share_link link (lit "1AbC_d-9")) as Hshare.
  { exists [], link. split; [reflexivity|]. split; [|intros; simpl; lia].
    exists (lit "https://drive.google.com/file/d/"), (lit "1AbC_d-9/view?usp=sharing").
    split; [by left|]. split; [vm_compute; reflexivity|].
    split; [vm_compute; reflexivity|]. vm_compute. discriminate. }
  destruct (link_resolver_rewrites_share_links_only link) as (Hrw & _ & _ & Hidem).
  split; [exact Hshare|]. split; [|exact Hidem].
  rewrite (Hrw _ Hshare). vm_compute. reflexivity.
Defined.

Lemma rating_is_read_after_the_label_witness :
  let text := lit "Rating:8/10 Summary:Strong match" in
  leftmost rating_place text (lit "8") ∧ rating_of text = 8.
Proof.
  intros text.
  assert (leftmost rating_place text (lit "8")) as Hplace.
  { exists [], text. split; [reflexivity|]. split; [|intros; simpl; lia].
    exists [], (lit "Rating:"), [], [], (lit "8/10 Summary:Strong match").
    split; [vm_compute; reflexivity|]. split; [by left|].
    split; [apply lit_eq_refl|]. split; [constructor|]. split; [by left|].
    split; [vm_compute; reflexivity|]. vm_compute. discriminate. }
  destruct (rating_is_read_after_the_label text) as (_ & _ & Hval & _).
  split; [exact Hplace|]. rewrite (Hval _ Hplace). vm_compute. reflexivity.
Defined.

Lemma rating_and_summary_are_read_independently_witness :
  let text := lit "Summary: good fit for the role" in
  mentions_rating text = false
  ∧ mentions_summary text = true
  ∧ rating_of text = 0
  ∧ ∃ cap, leftmost summary_place text cap ∧ summary_of text = Normal (trim cap).
Proof.
  intros text.
  assert (mentions_rating text = false) as Hr by (vm_compute; reflexivity).
  assert (mentions_summary text = true) as Hs by (vm_compute; reflexivity).
  destruct (rating_and_summary_are_read_independently text) as (Hzero & _ & Hcap & _).
  split; [exact Hr|]. split; [exact Hs|]. split; [exact (Hzero Hr)|exact (Hcap Hs)].
Defined.

Lemma row_without_link_is_skipped_witness :
  let fields := only_email "eve@example.org" in
  truthy (field (RowObject fields) "resume_link") = false
  ∧ ∃ σ' evs,
      loop_body second_download_times_out sample_model 1 (VStr []) 0
        (RowObject fields) (job_start 0%nat)
      = (Normal tt, σ')
      ∧ trace σ' = trace (job_start 0%nat) ++ evs
      ∧ Forall (λ ev, is_fetch ev = false ∧ is_generate ev = false) evs
      ∧ outside σ' = 0%nat.
Proof.
  intros fields.
  assert (truthy (field (RowObject fields) "resume_link") = false) as Hlink
    by (vm_compute; reflexivity).
  split; [exact Hlink|].
  destruct (row_without_link_is_skipped second_download_times_out sample_model
              fields Hlink) as (Hturn & _ & _).
  destruct (Hturn 1%nat (VStr []) 0%nat (job_start 0%nat))
    as (σ' & evs & Hrun & Htr & Hq & Hw & _).
  exists σ', evs. split; [exact Hrun|]. split; [exact Htr|].
  split; [exact Hq|exact Hw].
Defined.


Lemma backend_failures_count_as_analyses_witness :
  let run := run_job backend_down sample_model
               (BatchArray [candidate "ada@example.org" "https://example.org/ada.pdf"])
               (VStr (lit "Backend engineer")) tt in
  ∃ finalData,
    final_report (trace run.2)
    = Some (finalData,
            lit "Successfully extracted text from 1 PDFs and ran 1 LLM analyses.")
    ∧ (∃ res, finalData = [res]
              ∧ res !! lit "Rating" = Some (VNum 0)
              ∧ res !! lit "Summary"
                = Some (VStr (lit "Failed to get LLM report due to API error."))).
Proof.
  intros run.
  assert (∃ finalData report, final_report (trace run.2) = Some (finalData, report)
            ∧ ∃ res, finalData = [res]
                ∧ res !! lit "Rating" = Some (VNum 0)
                ∧ res !! lit "Summary"
                  = Some (VStr (lit "Failed to get LLM report due to API error.")))
    as (finalData & report & Hf & Hres).
  { eexists _, _. split; [vm_compute; reflexivity|].
    eexists. split; [reflexivity|]. split; vm_compute; reflexivity. }
  destruct (backend_failures_count_as_analyses backend_down sample_model)
    as (_ & Hmsg & _).
  pose proof (Hmsg _ _ _ _ _ Hf) as Hreport.
  exists finalData. split; [|exact Hres].
  rewrite Hf. f_equal. f_equal. rewrite Hreport.
  destruct Hres as (res & -> & Hr & Hs).
  unfold count, analysed, success.
  vm_compute in Hf. injection Hf as <- _. vm_compute. reflexivity.
Defined.

(** * Further properties of the code *)

(** ** Reading the response *)

(** X1.  Whenever the rating pattern matches a response, its capture is a
    non-empty run of decimal digits, so reading it as a base-10 integer
    always succeeds and gives a non-negative number: of the three guards on
    the parsed rating only the upper bound can fire.  The rating is the
    captured number if that is at most 10, and 0 otherwise. *)
Theorem rating_capture_is_a_natural_number text m1 :
  ratingMatch text = Some (Some m1) →
  m1 ≠ [] ∧ Forall (λ c, is_digit c = true) m1
  ∧ ∃ r, parseInt10 m1 = Some r ∧ 0 ≤ r
         ∧ rating_of text = if r <=? 10 then r else 0.
Proof.
  intros Hm. pose proof Hm as (ds & [= <-] & Hl)%ratingMatch_Some.
  pose proof (rating_of_found _ _ Hl) as Hr.
  destruct Hl as (pre & s & -> & [Hne HF]%rating_place_digits & _).
  split; [done|]. split; [done|]. exists (digits_value m1).
  split; [by apply parseInt10_digits|]. split; [by apply digits_value_nonneg|done].
Qed.

Lemma drop_while_Forall (P : N → Prop) p s :
  Forall P s → Forall P (drop_while p s).
Proof.
  induction 1 as [|a s Ha Hs IH]; simpl; [constructor|].
  destruct (p a); [done|by constructor].
Qed.

Lemma drop_while_head p s : head (p <$> drop_while p s) ≠ Some true.
Proof.
  induction s as [|a s IH]; simpl; [done|].
  destruct (p a) eqn:E; [done|]. simpl. by rewrite E.
Qed.

Lemma drop_while_keeps_last p s :
  last (p <$> s) ≠ Some true → last (p <$> drop_while p s) ≠ Some true.
Proof.
  induction s as [|a s IH]; simpl; [done|].
  destruct (p a) eqn:E; [|by simpl; rewrite E]. intros Hl. apply IH.
  destruct s as [|b s]; simpl in *; [done|]. done.
Qed.

Lemma trim_one_line s :
  Forall (λ c, is_dot c = true) s → one_trimmed_line (trim s).
Proof.
  intros HF. unfold one_trimmed_line, trim, trimEnd, trimStart.
  set (u := drop_while is_ws s).
  assert (Forall (λ c, is_dot c = true) u) as Hu by by apply drop_while_Forall.
  assert (head (is_ws <$> u) ≠ Some true) as Hh by apply drop_while_head.
  split_and!.
  - apply Forall_reverse. apply drop_while_Forall. by apply Forall_reverse.
  - rewrite fmap_reverse, head_reverse. apply drop_while_keeps_last.
    by rewrite fmap_reverse, last_reverse.
  - rewrite fmap_reverse, last_reverse. apply drop_while_head.
Qed.

(** X2.  Reading the summary never fails: for every response the summary is
    a string, and that string is a single line (it holds no line
    terminator) without white space at either end. *)
Theorem summary_is_one_trimmed_line text :
  ∃ s, summary_of text = Normal s ∧ one_trimmed_line s.
Proof.
  unfold summary_of. destruct (summaryMatch text) as [m|] eqn:E.
  - apply summaryMatch_Some in E as (cap & -> & pre & s & -> & Hp & _).
    eexists. split; [done|]. apply trim_one_line.
    destruct Hp as (lbl & after & -> & _ & ->). apply take_while_Forall.
  - eexists. split; [done|]. split_and!; [|by vm_compute..].
    apply Forall_forall. intros c Hc.
    assert (forallb is_dot (lit "Could not parse summary from LLM response.") = true)
      as Hall by (by vm_compute).
    rewrite forallb_forall in Hall. apply Hall. by apply list_elem_of_In.
Qed.

(** ** The prompt *)

Lemma truncated_length s : (Z.of_nat (length (truncated s)) ≤ 8016)%Z.
Proof.
  unfold truncated, substring0.
  assert (length (lit "... (truncated)") = 15%nat) as Hl by (by vm_compute).
  destruct (Z.ltb_spec 8000 (Z.of_nat (length s))).
  - rewrite !length_app, length_take, Hl. cbn [length]. lia.
  - lia.
Qed.

(** X3.  Cutting a text for the prompt leaves at most 8016 code units and
    keeps the first 8000 code units of the text as they are.  A text of at
    most 8000 code units is not changed; a longer one becomes its first
    8000 code units followed by a line break and the truncation mark. *)
Theorem truncated_keeps_a_bounded_prefix s :
  Z.of_nat (length (truncated s)) ≤ 8016
  ∧ take (Z.to_nat 8000) (truncated s) = take (Z.to_nat 8000) s
  ∧ (Z.of_nat (length s) ≤ 8000 → truncated s = s)
  ∧ (8000 < Z.of_nat (length s) →
     truncated s = take (Z.to_nat 8000) s ++ [10%N] ++ lit "... (truncated)").
Proof.
  split; [apply truncated_length|]. unfold truncated, substring0.
  destruct (Z.ltb_spec 8000 (Z.of_nat (length s))); split_and!.
  all: try lia; try done.
  rewrite take_app_le; [|rewrite length_take; lia].
  by rewrite take_take, Nat.min_id.
Qed.



(** ** The format of the prompt, read back *)

Lemma take_while_stop p s1 s2 :
  Forall (λ c, p c = true) s1 → head (p <$> s2) ≠ Some true →
  take_while p (s1 ++ s2) = s1.
Proof.
  intros Hs1 Hs2. induction Hs1 as [|a s1 Ha _ IH]; simpl.
  - destruct s2 as [|b s2]; simpl in *; [done|]. by destruct (p b).
  - by rewrite Ha, IH.
Qed.

Lemma drop_while_none p s : head (p <$> s) ≠ Some true → drop_while p s = s.
Proof. destruct s as [|a s]; simpl; [done|]. by destruct (p a). Qed.

Lemma trim_fixed s : one_trimmed_line s → trim s = s.
Proof.
  intros (_ & Hh & Hl). unfold trim, trimStart, trimEnd.
  rewrite (drop_while_none _ s Hh).
  rewrite drop_while_none; [apply reverse_involutive|].
  by rewrite fmap_reverse, head_reverse.
Qed.

Lemma rating_of_formatted ds rest :
  ds ≠ [] → Forall (λ c, is_digit c = true) ds → head (is_digit <$> rest) ≠ Some true →
  rating_of (lit "Rating:" ++ ds ++ rest)
  = if digits_value ds <=? 10 then digits_value ds else 0.
Proof.
  intros Hne HF Hrest. apply rating_of_found.
  exists [], (lit "Rating:" ++ ds ++ rest). split; [done|].
  split; [|intros; simpl; lia].
  exists [], (lit "Rating:"), [], [], (ds ++ rest).
  split_and!; [done|by left|apply lit_eq_refl|done|by left| |done].
  by rewrite take_while_stop.
Qed.

Lemma summary_label_first lbl :
  is_summary_label lbl → ∃ c rest, lbl = c :: rest ∧ canonicalize c = 83%N.
Proof.
  assert (lit "Summarized Report:" !! 0%nat = Some 83%N) as E1 by (by vm_compute).
  assert (lit "Summary:" !! 0%nat = Some 83%N) as E2 by (by vm_compute).
  intros [H|H].
  - destruct (Forall2_lookup_l _ _ lbl _ _ H E1) as (c & Hc & Hcc).
    destruct lbl as [|c' rest]; [done|]. simpl in Hc. injection Hc as ->.
    exists c, rest. split; [done|].
    unfold char_eq in Hcc. by apply N.eqb_eq in Hcc.
  - destruct (Forall2_lookup_l _ _ lbl _ _ H E2) as (c & Hc & Hcc).
    destruct lbl as [|c' rest]; [done|]. simpl in Hc. injection Hc as ->.
    exists c, rest. split; [done|].
    unfold char_eq in Hcc. by apply N.eqb_eq in Hcc.
Qed.

Lemma summary_of_after pre s :
  Forall (λ c, canonicalize c ≠ 83%N) pre → one_trimmed_line s →
  summary_of (pre ++ lit "Summary:" ++ s) = Normal s.
Proof.
  intros Hpre Hs. unfold summary_of.
  assert (summaryMatch (pre ++ lit "Summary:" ++ s) = Some (Some s)) as ->.
  { apply summaryMatch_Some. exists s. split; [done|].
    exists pre, (lit "Summary:" ++ s). split; [done|]. split.
    - exists (lit "Summary:"), s. split; [done|]. split; [right; apply lit_eq_refl|].
      destruct Hs as (Hd & Hh & _).
      by rewrite (drop_while_none _ s Hh), take_while_all.
    - intros p1 s1 x1 Heq (lbl & after & -> & (c & l' & -> & Hc)%summary_label_first & _).
      destruct (decide (length pre ≤ length p1)%nat) as [|Hlt]; [done|]. exfalso.
      assert ((pre ++ lit "Summary:" ++ s) !! length p1 = Some c) as Hlook.
      { rewrite Heq, lookup_app_r by lia. by rewrite Nat.sub_diag. }
      rewrite lookup_app_l in Hlook by lia.
      rewrite Forall_forall in Hpre. apply (Hpre c); [|done].
      by eapply list_elem_of_lookup_2. }
  by rewrite trim_fixed.
Qed.

Lemma small_rating_prints r :
  (r ≤ 10)%nat →
  nat_to_jsstring r ≠ []
  ∧ Forall (λ c, is_digit c = true) (nat_to_jsstring r)
  ∧ digits_value (nat_to_jsstring r) = Z.of_nat r.
Proof.
  intros Hr.
  do 11 (destruct r as [|r];
         [split_and!; [by vm_compute|apply Forall_forall; intros c Hc;
            apply list_elem_of_In in Hc; revert c Hc; apply forallb_forall;
            by vm_compute|by vm_compute]|]).
  lia.
Qed.

(** X4.  A response written in the format that the prompt asks for is read
    back as written: for a rating [r] of at most 10 and a summary [s] that
    is one line without white space at either end, the response
    [Rating:r/10 Summary:s] yields the rating [r] and the summary [s]. *)
Theorem formatted_response_is_read_back r s :
  (r ≤ 10)%nat → one_trimmed_line s →
  rating_of (formatted_response r s) = Z.of_nat r
  ∧ summary_of (formatted_response r s) = Normal s.
Proof.
  intros Hr Hs. destruct (small_rating_prints r Hr) as (Hne & HF & Hv).
  unfold formatted_response. split.
  - rewrite rating_of_formatted; [|done|done|by vm_compute].
    rewrite Hv. destruct (Z.leb_spec (Z.of_nat r) 10); lia.
  - assert (lit "/10 Summary:" = lit "/10 " ++ lit "Summary:") as -> by (by vm_compute).
    replace (lit "Rating:" ++ nat_to_jsstring r ++ (lit "/10 " ++ lit "Summary:") ++ s)
      with ((lit "Rating:" ++ nat_to_jsstring r ++ lit "/10 ") ++ lit "Summary:" ++ s)
      by (by rewrite <-!(assoc_L (++))).
    apply summary_of_after; [|done].
    assert (∀ l, forallb (λ c, negb (canonicalize c =? 83)%N) l = true →
                 Forall (λ c, canonicalize c ≠ 83%N) l) as Hb.
    { intros l Hl. apply Forall_forall. intros c Hc%list_elem_of_In.
      rewrite forallb_forall in Hl. apply Hl in Hc.
      by apply negb_true_iff, N.eqb_neq in Hc. }
    repeat apply Forall_app_2; [by apply Hb; vm_compute| |by apply Hb; vm_compute].
    eapply Forall_impl; [exact HF|]. intros c Hc. unfold is_digit in Hc.
    apply andb_true_iff in Hc as [?%N.leb_le ?%N.leb_le]. unfold canonicalize.
    destruct ((97 <=? c)%N && (c <=? 122)%N) eqn:E; [|lia].
    apply andb_true_iff in E as [?%N.leb_le ?%N.leb_le]. lia.
Qed.

(** ** Whole jobs *)

Ltac run_steps :=
  repeat (progress (unfold bind, try_catch, ret, throw, lift, emit, set_vars,
                      get_vars, record, fetch, pdfParse, generateContent,
                      arrayBuffer in *; simpl in *; simplify_eq)
          || case_match).

Lemma count_length {A} (f : A → bool) l : (count f l ≤ length l)%nat.
Proof. induction l as [|x l IH]; simpl; [lia|]. destruct (f x); simpl; lia. Qed.

Lemma count_monotone {A} (f g : A → bool) l :
  (∀ x, f x = true → g x = true) → (count f l ≤ count g l)%nat.
Proof.
  intros Hfg. induction l as [|x l IH]; simpl; [lia|].
  destruct (f x) eqn:E; [rewrite (Hfg _ E)|]; simpl; [lia|].
  destruct (g x); simpl; lia.
Qed.

Lemma analysed_success res : analysed res = true → success res = true.
Proof. unfold analysed. by intros [? _]%andb_true_iff. Qed.

Section Batches.

Context {W : Type} (env : world W).

(** X6.  The counts that a closing report states are the handler's counters
    at the end of the job, the rows it sends are the collected rows, and the
    number of analyses is at most the number of extractions, which is at
    most the number of rows sent. *)
Theorem closing_counts_are_ordered model csvData txtData w finalData report :
  final_report (trace (run_job env model csvData txtData w).2)
  = Some (finalData, report) →
  let v := vars (run_job env model csvData txtData w).2 in
  processedResumes v = finalData
  ∧ report = closing_report (successfulExtractions v) (successfulLLMCalls v)
  ∧ (successfulLLMCalls v ≤ successfulExtractions v ≤ length finalData)%nat.
Proof.
  rewrite run_job_unfold.
  destruct (orchestration env model csvData txtData (job_start w)) as [o σ'] eqn:E.
  apply orchestration_spec in E. destruct o as [[]|e].
  - destruct E as (rows & evs & results & -> & Hq & HF & Hv & Htr).
    simpl. rewrite Htr, (assoc_L (++)). unfold final_report. rewrite last_snoc.
    intros [= <- <-]. split; [done|]. split; [done|].
    rewrite Hv. simpl.
    split; [by apply count_monotone, analysed_success|apply count_length].
  - simpl. unfold final_report. by rewrite last_snoc.
Qed.

(** X7.  A job on an empty batch calls nothing outside: it sends the opening
    update, the update that announces the CSV, and a closing report with no
    rows that counts 0 extractions and 0 analyses. *)
Theorem empty_batch_completes_at_once model txtData w :
  run_job env model (BatchArray []) txtData w
  = (Normal tt,
     State w
       [ started;
         EvEmit (processingUpdate (Some (lit "converting to csv"))
                   (lit "All resumes processed. Generating final CSV..."));
         EvEmit (processingComplete []
                   (lit "Successfully extracted text from 0 PDFs and ran 0 LLM analyses.")) ]
       (Locals [] 0 0)).
Proof.
  assert (closing_report 0 0
          = lit "Successfully extracted text from 0 PDFs and ran 0 LLM analyses.")
    as <- by (by vm_compute).
  reflexivity.
Qed.

(** X8.  A payload whose [csvData] is [undefined] makes the job end at once
    with a [processingError] event that carries the generic message and
    the interpreter's complaint about reading [length] of [undefined]; a
    payload whose [csvData] is [null] does the same with the complaint
    about [null].  Nothing else happens after the opening update. *)
Theorem missing_batch_is_reported model txtData w :
  run_job env model BatchUndefined txtData w
  = (Normal tt,
     State w
       [ started;
         EvEmit (processingError
                   (lit "An error occurred during backend processing. Check server logs.")
                   (lit "Cannot read properties of undefined (reading 'length')")) ]
       (Locals [] 0 0))
  ∧ run_job env model BatchNull txtData w
    = (Normal tt,
       State w
         [ started;
           EvEmit (processingError
                     (lit "An error occurred during backend processing. Check server logs.")
                     (lit "Cannot read properties of null (reading 'length')")) ]
         (Locals [] 0 0)).
Proof.
  assert (message (cannot_read "undefined" "length")
          = lit "Cannot read properties of undefined (reading 'length')") as H1
    by (vm_compute; reflexivity).
  assert (message (cannot_read "null" "length")
          = lit "Cannot read properties of null (reading 'length')") as H2
    by (vm_compute; reflexivity).
  rewrite <-H1, <-H2. split; reflexivity.
Qed.

End Batches.

(** ** The calls and events of a job *)

Lemma count_app {A} (f : A → bool) l1 l2 :
  count f (l1 ++ l2) = (count f l1 + count f l2)%nat.
Proof. induction l1 as [|x l1 IH]; simpl; [done|]. rewrite IH. lia. Qed.

Lemma count_none {A} (f : A → bool) l :
  Forall (λ x, f x = false) l → count f l = 0%nat.
Proof. induction 1 as [|x l Hx _ IH]; simpl; [done|]. by rewrite Hx, IH. Qed.

Section Calls.

Context {W : Type} (env : world W).

Implicit Types (σ : state (W:=W)).

Lemma extractPdfData_calls v σ o σ' :
  extractPdfData env v σ = (o, σ') →
  ∃ evs, trace σ' = trace σ ++ evs
    ∧ Forall (λ ev, is_generate ev = false) evs
    ∧ match o with
      | Normal _ => count is_fetch evs = Nat.b2n (truthy v)
      | Throws e => e = TypeError (lit "resume_link.match is not a function")
      end.
Proof.
  unfold extractPdfData, resolve. intros H.
  destruct (truthy v) eqn:Ht; simpl in H.
  2:{ run_steps. exists []. by rewrite app_nil_r. }
  destruct v as [| |b|z|link]; try done.
  1,2: run_steps; exists []; by rewrite app_nil_r.
  run_steps.
  all: eexists; split; [by rewrite <-?(assoc_L (++))|split; [by repeat constructor|done]].
Qed.

Lemma compareWithLLM_calls model c txtData σ o σ' :
  has_text c = true →
  compareWithLLM env model c txtData σ = (o, σ') →
  ∃ evs, trace σ' = trace σ ++ evs
    ∧ Forall (λ ev, is_fetch ev = false ∧ asks txtData ev) evs
    ∧ match o with
      | Normal _ =>
          count is_generate evs = match model with Some _ => 1 | None => 0 end%nat
      | Throws e => job_description_part txtData = Throws e
      end.
Proof.
  unfold compareWithLLM. intros Hc H. rewrite Hc in H. simpl in H.
  destruct model as [g|]; [|run_steps; exists []; by rewrite app_nil_r].
  destruct (job_description_part txtData) as [jd|e] eqn:Hj;
    [|run_steps; exists []; by rewrite app_nil_r].
  assert (∃ t, text c = Some t ∧ t ≠ []) as (t & Ht & Hne).
  { unfold has_text in Hc. destruct (text c) as [t|]; [|done].
    exists t. split; [done|]. by apply negb_true_iff, bool_decide_eq_false in Hc. }
  rewrite Ht in H. simpl in H.
  assert (asks txtData (EvGenerate (prompt_text (truncated t) jd))) as Hasks.
  { intros p [= <-]. by exists t, jd. }
  run_steps.
  all: eexists; split; [by rewrite <-?(assoc_L (++))|split; [by repeat constructor|done]].
Qed.

Lemma acquisition_calls email v σ o σ' :
  acquisition env email v σ = (o, σ') →
  ∃ evs, trace σ' = trace σ ++ evs
    ∧ Forall (λ ev, is_generate ev = false) evs
    ∧ processedResumes (vars σ') = processedResumes (vars σ)
    ∧ match o with
      | Normal _ =>
          count is_fetch evs = Nat.b2n (truthy v) ∧ count is_emit evs = 1%nat
      | Throws e =>
          e = TypeError (lit "resume_link.match is not a function")
          ∧ truthy v = true ∧ ∀ s, v ≠ VStr s
      end.
Proof.
  unfold acquisition. intros H. destruct (truthy v) eqn:Ht.
  - unfold bind at 1 in H. unfold emit in H. unfold bind at 1 in H.
    destruct (extractPdfData env v _) as [o1 σ1] eqn:E. pose proof E as E'.
    apply extractPdfData_calls in E as (evs & Hc & Hq & Ho).
    apply extractPdfData_spec in E' as (Hv & (evs' & Hc' & Hq' & _) & Ho').
    unfold continues in Hc'. rewrite Hc in Hc'. apply app_inv_head in Hc' as <-.
    assert (count is_emit evs = 0%nat) as Hem.
    { apply count_none. apply (Forall_impl _ _ _ Hq'). by intros ev [? _]. }
    simpl in Hc, Hv. rewrite ?Ht in Ho. destruct o1 as [c|e]; simpl in H.
    + destruct (has_text c); run_steps.
      all: eexists; split; [by rewrite Hc, <-(assoc_L (++))|].
      all: split; [by constructor|]. all: simpl; by rewrite ?Hv, Ho, Hem.
    + simplify_eq. eexists; split; [by rewrite Hc, <-(assoc_L (++))|].
      split; [by constructor|]. rewrite Hv. destruct Ho' as [? ?]. by split_and!.
  - run_steps. eexists. split; [done|]. split; [by repeat constructor|done].
Qed.

Lemma scoring_calls model email c txtData σ o σ' :
  scoring env model email c txtData σ = (o, σ') →
  ∃ evs, trace σ' = trace σ ++ evs
    ∧ Forall (λ ev, is_fetch ev = false ∧ asks txtData ev) evs
    ∧ processedResumes (vars σ') = processedResumes (vars σ)
    ∧ match o with
      | Normal _ =>
          count is_generate evs
          = match model with Some _ => Nat.b2n (has_text c) | None => 0 end%nat
          ∧ count is_emit evs = Nat.b2n (has_text c)
      | Throws e => job_description_part txtData = Throws e
      end.
Proof.
  unfold scoring. intros H. destruct (has_text c) eqn:Hc.
  - unfold bind at 1 in H. unfold emit in H. unfold bind at 1 in H.
    destruct (compareWithLLM env model c txtData _) as [o1 σ1] eqn:E.
    pose proof E as E'.
    apply compareWithLLM_calls in E as (evs & Hc' & Hq & Ho); [|done].
    apply compareWithLLM_spec in E' as (Hv & (evs' & Hc'' & Hq'' & _) & _).
    unfold continues in Hc''. rewrite Hc' in Hc''.
    apply app_inv_head in Hc'' as <-.
    assert (count is_emit evs = 0%nat) as Hem.
    { apply count_none. apply (Forall_impl _ _ _ Hq''). by intros ev [? _]. }
    simpl in Hc', Hv.
    assert (Forall (λ ev, is_fetch ev = false ∧ asks txtData ev)
              (EvEmit (processingUpdate None
                 (lit "Analyzing resume " ++ to_jsstring email
                  ++ lit " with Gemini LLM...")) :: evs)) as HF.
    { constructor; [|done]. split; [done|]. by intros p. }
    destruct o1 as [sr|e]; simpl in H.
    + destruct (counted sr); run_steps.
      all: eexists; split; [by rewrite Hc', <-(assoc_L (++))|].
      all: split; [done|]. all: rewrite ?Hv; split; [done|].
      all: simpl; by rewrite Ho, Hem.
    + simplify_eq. eexists; split; [by rewrite Hc', <-(assoc_L (++))|].
      split; [done|]. by rewrite Hv.
  - run_steps; exists []; by rewrite app_nil_r.
Qed.

Lemma loop_body_calls model n txtData i row σ o σ' :
  loop_body env model n txtData i row σ = (o, σ') →
  ∃ evs, trace σ' = trace σ ++ evs
    ∧ Forall (asks txtData) evs
    ∧ match o with
      | Normal _ =>
          ∃ res,
            processedResumes (vars σ') = processedResumes (vars σ) ++ [res]
            ∧ count is_fetch evs = Nat.b2n (has_link row)
            ∧ count is_generate evs = backend_calls model [res]
            ∧ count is_emit evs = (2 + Nat.b2n (success res))%nat
      | Throws e => row_fault row = Some e ∨ job_description_part txtData = Throws e
      end.
Proof.
  unfold loop_body. intros H.
  destruct row as [| |fields];
    [run_steps; exists []; rewrite app_nil_r; split; [done|]; split; [done|];
     by left..|].
  unfold get_field in H. unfold bind at 1 2 3 in H. unfold ret at 1 2, emit in H.
  set (email := or_else _ _) in H.
  set (link := default VUndefined (fields !! lit "resume_link")) in H.
  unfold bind at 1 in H.
  destruct (acquisition env email link _) as [o1 σ1] eqn:E1.
  apply acquisition_calls in E1 as (ev1 & Hc1 & Hq1 & Hp1 & Ho1).
  simpl in Hc1, Hp1.
  assert (Forall (asks txtData) ev1) as Hq1'.
  { eapply Forall_impl; [done|]. intros ev Hg p ->. done. }
  destruct o1 as [c|e]; simpl in H.
  2:{ simplify_eq. eexists. split; [by rewrite Hc1, <-(assoc_L (++))|].
      split; [constructor; [by intros p|done]|].
      left. destruct Ho1 as (-> & Ht & Hns). simpl. fold link.
      destruct link as [| |b|z|s]; simpl in *; try done;
        [by rewrite Ht..|by destruct (Hns s)]. }
  unfold bind at 1 in H.
  destruct (scoring env model email c txtData σ1) as [o2 σ2] eqn:E2.
  apply scoring_calls in E2 as (ev2 & Hc2 & Hq2 & Hp2 & Ho2).
  assert (Forall (asks txtData) ev2) as Hq2'.
  { apply (Forall_impl _ _ _ Hq2). intros ev [_ Ha]. exact Ha. }
  assert (Forall (λ ev, is_fetch ev = false) ev2) as Hf2.
  { apply (Forall_impl _ _ _ Hq2). intros ev [Hf _]. exact Hf. }
  destruct o2 as [[r s]|e]; simpl in H.
  2:{ simplify_eq. eexists. split; [by rewrite Hc2, Hc1, <-!(assoc_L (++))|].
      split; [|by right]. constructor; [by intros p|]. by apply Forall_app. }
  unfold set_vars in H. injection H as <- <-. simpl.
  eexists. split; [by rewrite Hc2, Hc1, <-!(assoc_L (++))|].
  split; [constructor; [by intros p|]; by apply Forall_app|].
  eexists. split; [by rewrite Hp2, Hp1|].
  destruct Ho1 as [Ho1 He1]. destruct Ho2 as [Ho2 He2].
  simpl. rewrite !count_app, Ho1, Ho2, He1, He2, (count_none _ _ Hf2),
    (count_none _ _ Hq1).
  split; [unfold has_link, field; simpl; fold link; lia|].
  unfold backend_calls. simpl. rewrite success_processedRow.
  split; [destruct model; lia|lia].
Qed.

Lemma for_rows_calls model n txtData rows : ∀ i σ o σ',
  for_rows env model n txtData i rows σ = (o, σ') →
  ∃ evs, trace σ' = trace σ ++ evs
    ∧ Forall (asks txtData) evs
    ∧ match o with
      | Normal _ =>
          ∃ results,
            processedResumes (vars σ') = processedResumes (vars σ) ++ results
            ∧ count is_fetch evs = count has_link rows
            ∧ count is_generate evs = backend_calls model results
            ∧ count is_emit evs = (2 * length rows + count success results)%nat
      | Throws e =>
          (∃ row, row ∈ rows ∧ row_fault row = Some e)
          ∨ job_description_part txtData = Throws e
      end.
Proof.
  induction rows as [|row rows IH]; intros i σ o σ' H; simpl in H.
  - run_steps. exists []. rewrite app_nil_r. split; [done|]. split; [done|].
    exists []. rewrite app_nil_r. split; [done|]. split; [done|].
    split; [by destruct model|done].
  - unfold bind at 1 in H.
    destruct (loop_body env model n txtData i row σ) as [o1 σ1] eqn:E1.
    apply loop_body_calls in E1 as (ev1 & Hc1 & Hq1 & Ho1).
    destruct o1 as [[]|e].
    2:{ simplify_eq. exists ev1. split; [done|]. split; [done|].
        destruct Ho1 as [Hr|Ht]; [left|by right]. exists row. split; [by left|done]. }
    destruct Ho1 as (res & Hp1 & Hf1 & Hg1 & He1).
    apply IH in H as (ev2 & Hc2 & Hq2 & Ho2).
    exists (ev1 ++ ev2). split; [by rewrite Hc2, Hc1, (assoc_L (++))|].
    split; [by apply Forall_app|].
    destruct o as [[]|e].
    2:{ destruct Ho2 as [(r & Hin & Hr)|Ht]; [left|by right].
        exists r. split; [by right|done]. }
    destruct Ho2 as (results & Hp2 & Hf2 & Hg2 & He2).
    exists (res :: results). split; [by rewrite Hp2, Hp1, <-(assoc_L (++))|].
    rewrite !count_app, Hf1, Hf2, Hg1, Hg2, He1, He2. split; [done|].
    split; [unfold backend_calls; destruct model; simpl; lia|].
    cbn [length count]. lia.
Qed.

Ltac all_ask :=
  repeat first [ assumption | apply Forall_nil_2 | apply Forall_app_2
               | apply Forall_cons_2; [by intros ?|] ].

Lemma run_job_rows model rows txtData w :
  run_job env model (BatchArray rows) txtData w
  = match for_rows env model (length rows) txtData 0 rows (job_start w) with
    | (Normal _, σ1) =>
        (Normal tt,
         State (outside σ1)
           ((trace σ1
             ++ [EvEmit (processingUpdate (Some (lit "converting to csv"))
                           (lit "All resumes processed. Generating final CSV..."))])
            ++ [EvEmit (processingComplete (processedResumes (vars σ1))
                          (closing_report (successfulExtractions (vars σ1))
                                          (successfulLLMCalls (vars σ1))))])
           (vars σ1))
    | (Throws e, σ1) =>
        (Normal tt,
         State (outside σ1)
           (trace σ1 ++ [EvEmit (processingError generic_message (message e))])
           (vars σ1))
    end.
Proof.
  rewrite run_job_unfold.
  unfold orchestration, batch_rows, bind, ret, emit, get_vars, record.
  by destruct (for_rows env model (length rows) txtData 0 rows (job_start w))
    as [[[]|e] σ1].
Qed.

Lemma run_job_calls model csvData txtData w :
  let tr := trace (run_job env model csvData txtData w).2 in
  Forall (asks txtData) tr
  ∧ match final_report tr with
    | Some (finalData, _) =>
        ∃ rows, csvData = BatchArray rows
                ∧ count is_fetch tr = count has_link rows
                ∧ count is_generate tr = backend_calls model finalData
                ∧ count is_emit tr
                  = (3 + 2 * length rows + count success finalData)%nat
    | None =>
        ∃ e, last tr = Some (EvEmit (processingError generic_message (message e)))
             ∧ job_fault csvData txtData e
    end.
Proof.
  destruct csvData as [| |rows].
  1,2: simpl; split; [all_ask|]; unfold final_report; simpl;
       eexists; split; [|reflexivity]; reflexivity.
  rewrite run_job_rows.
  destruct (for_rows env model (length rows) txtData 0 rows (job_start w))
    as [o1 σ1] eqn:E1.
  apply for_rows_calls in E1 as (ev1 & Hc1 & Hq1 & Ho1). simpl in Hc1.
  destruct o1 as [[]|e]; simpl.
  - destruct Ho1 as (results & Hp & Hf & Hg & He). simpl in Hp.
    rewrite Hc1, Hp. split; [all_ask|].
    unfold final_report. rewrite last_snoc.
    exists rows. split; [done|].
    rewrite !count_app. cbn [count is_fetch is_generate is_emit Nat.b2n started].
    rewrite Hf, Hg, He. lia.
  - rewrite Hc1. split; [all_ask|].
    unfold final_report. rewrite last_snoc. by exists e.
Qed.

End Calls.

Ltac pick_message :=
  unfold error_messages; rewrite !elem_of_cons;
  repeat first [ left; vm_compute; reflexivity | right ].

Lemma row_fault_message row e :
  row_fault row = Some e → message e ∈ error_messages.
Proof.
  destruct row as [| |fields]; simpl.
  1,2: intros [= <-]; pick_message.
  destruct (default VUndefined (fields !! lit "resume_link")) as [| |b|z|s];
    simpl; try done.
  all: case_match; try done; intros [= <-]; pick_message.
Qed.

Lemma job_fault_message csvData txtData e :
  job_fault csvData txtData e → message e ∈ error_messages.
Proof.
  destruct csvData as [| |rows]; simpl.
  1,2: intros ->; pick_message.
  intros [(row & _ & Hr)|Hj]; [by eapply row_fault_message|].
  destruct txtData; simplify_eq/=; pick_message.
Qed.

Section Traffic.

Context {W : Type} (env : world W).

Implicit Types (σ : state (W:=W)).

(** X11.  In a job that ends with a closing report nothing is retried: the
    number of download requests is the number of records with a truthy
    link, and the number of calls to the scoring backend is the number of
    result rows with extraction status [Success] when a backend is
    configured, and 0 otherwise. *)
Theorem every_call_is_made_once model csvData txtData w finalData report :
  final_report (trace (run_job env model csvData txtData w).2)
  = Some (finalData, report) →
  ∃ rows,
    csvData = BatchArray rows
    ∧ count is_fetch (trace (run_job env model csvData txtData w).2)
      = count has_link rows
    ∧ count is_generate (trace (run_job env model csvData txtData w).2)
      = backend_calls model finalData.
Proof.
  intros H. destruct (run_job_calls env model csvData txtData w) as [_ Hm].
  simpl in Hm. rewrite H in Hm. destruct Hm as (rows & ? & ? & ? & _).
  by exists rows.
Qed.

(** X12.  A job that ends with a closing report has sent, that report
    included, three events for the job, two for every record, and one more
    for every record whose text was extracted. *)
Theorem each_record_is_reported_on model csvData txtData w finalData report :
  final_report (trace (run_job env model csvData txtData w).2)
  = Some (finalData, report) →
  count is_emit (trace (run_job env model csvData txtData w).2)
  = (3 + 2 * length finalData + count success finalData)%nat.
Proof.
  intros H. destruct (run_job_calls env model csvData txtData w) as [_ Hm].
  simpl in Hm. rewrite H in Hm. destruct Hm as (rows & -> & _ & _ & ->).
  apply final_report_inv in H as (? & [= <-] & HF & _).
  by rewrite (Forall2_length _ _ _ HF).
Qed.

(** X10.  For a job description that is a string and records whose fields
    are primitive values, a [processingError] event always carries the
    generic message, and its [error] text is one of five: the
    interpreter's complaint about reading [length] of an [undefined] or
    [null] batch, about reading [email] of a record that is [undefined] or
    [null], or about a link that has no [match] method.  Which one it is
    follows the payload.  No failure of the network, of the PDF parser or
    of the scoring backend reaches the client as an error. *)
Theorem only_input_errors_reach_the_client model csvData j w msg err :
  EvEmit (processingError msg err)
    ∈ trace (run_job env model csvData (VStr j) w).2 →
  msg = lit "An error occurred during backend processing. Check server logs."
  ∧ err ∈ error_messages
  ∧ match csvData with
    | BatchUndefined =>
        err = lit "Cannot read properties of undefined (reading 'length')"
    | BatchNull => err = lit "Cannot read properties of null (reading 'length')"
    | BatchArray rows =>
        ∃ row e, row ∈ rows ∧ row_fault row = Some e ∧ err = message e
    end.
Proof.
  intros Hin.
  destruct (run_job_spec env model csvData (VStr j) w)
    as (progress & final & Htr & Hq & _).
  destruct (run_job_calls env model csvData (VStr j) w) as [_ Hm].
  simpl in Hm. rewrite Htr in Hin, Hm. unfold final_report in Hm.
  rewrite last_snoc in Hm.
  apply elem_of_app in Hin as [Hin|Hin%list_elem_of_singleton].
  - rewrite Forall_forall in Hq. by destruct (Hq _ Hin).
  - injection Hin as <-. destruct Hm as (e & [= -> ->] & Hf).
    split; [done|]. split; [by eapply job_fault_message|].
    destruct csvData as [| |rows]; simpl in Hf.
    + subst e. vm_compute. reflexivity.
    + subst e. vm_compute. reflexivity.
    + destruct Hf as [(row & Hr & Hrf)|Hj]; [by eauto|done].
Qed.

(** X14.  A job whose job description is [undefined] or [null] never calls
    the scoring backend.  With a backend configured, such a job ends with a
    closing report only if no text was extracted from any record, and the
    report then counts 0 extractions and 0 analyses. *)
Theorem job_without_description_scores_nothing model csvData txtData w :
  txtData = VUndefined ∨ txtData = VNull →
  (∀ p, EvGenerate p ∉ trace (run_job env model csvData txtData w).2)
  ∧ ∀ finalData report,
      model ≠ None →
      final_report (trace (run_job env model csvData txtData w).2)
      = Some (finalData, report) →
      count success finalData = 0%nat
      ∧ report = closing_report 0 0.
Proof.
  intros Ht.
  destruct (run_job_calls env model csvData txtData w) as [Ha Hm].
  simpl in Ha, Hm.
  assert (∀ p, EvGenerate p ∉ trace (run_job env model csvData txtData w).2)
    as Hno.
  { intros p Hin. rewrite Forall_forall in Ha.
    destruct (Ha _ Hin p eq_refl) as (t & jd & _ & Hjd & _).
    by destruct Ht as [-> | ->]. }
  split; [done|]. intros finalData report Hmodel Hf.
  rewrite Hf in Hm. destruct Hm as (rows & -> & _ & Hg & _).
  rewrite count_none in Hg.
  2:{ apply Forall_forall. intros [] Hin; try done. by destruct (Hno _ Hin). }
  destruct model as [g|]; [|done]. simpl in Hg.
  split; [done|].
  apply final_report_inv in Hf as (? & _ & _ & ->).
  pose proof (count_monotone analysed success finalData analysed_success).
  rewrite <-Hg in *. by replace (count analysed finalData) with 0%nat by lia.
Qed.

End Traffic.

(** ** Where a prompt comes from *)

Section Prompts.

Context {W : Type} (env : world W).

Implicit Types (σ : state (W:=W)).











End Prompts.

(** ** Faulty records, single requests *)

Section Faults.

Context {W : Type} (env : world W).

Implicit Types (σ : state (W:=W)).

Lemma loop_body_fault model n txtData i row e σ :
  row_fault row = Some e →
  ∃ evs σ',
    loop_body env model n txtData i row σ = (Throws e, σ')
    ∧ trace σ' = trace σ ++ evs
    ∧ Forall (λ ev, is_emit ev = true ∧ is_terminal ev = false) evs
    ∧ vars σ' = vars σ ∧ outside σ' = outside σ.
Proof.
  unfold loop_body. destruct row as [| |fields]; simpl.
  1,2: intros [= <-]; exists [], σ; by rewrite app_nil_r.
  unfold bind, ret, emit, record, acquisition. simpl.
  destruct (default VUndefined (fields !! lit "resume_link")) as [| |b|z|s];
    simpl; try done.
  - destruct b; [|done]. intros [= <-]. simpl.
    eexists _, _. split; [reflexivity|]. simpl. rewrite <-(assoc_L (++)).
    split; [done|]. split; [by repeat constructor|done].
  - destruct (negb (z =? 0)) eqn:Hz; [|done]. intros [= <-].
    unfold bind, emit, extractPdfData, resolve, throw, record. simpl.
    rewrite Hz. simpl.
    eexists _, _. split; [reflexivity|]. simpl. rewrite <-(assoc_L (++)).
    split; [done|]. split; [by repeat constructor|done].
Qed.

Lemma for_rows_app model n txtData pre rest : ∀ i σ,
  for_rows env model n txtData i (pre ++ rest) σ
  = match for_rows env model n txtData i pre σ with
    | (Normal _, σ1) => for_rows env model n txtData (i + length pre) rest σ1
    | (Throws e, σ1) => (Throws e, σ1)
    end.
Proof.
  induction pre as [|row pre IH]; intros i σ; cbn [for_rows app length].
  - unfold ret. by rewrite Nat.add_0_r.
  - unfold bind.
    destruct (loop_body env model n txtData i row σ) as [[[]|e] σ1]; [|done].
    rewrite IH. by replace (S i + length pre)%nat with (i + S (length pre))%nat by lia.
Qed.

(** X9.  The first record that is not an object, or whose link is a truthy
    value that is not a string, ends the job: after well-formed records
    [pre], with a job description present, the job's last event is a
    [processingError] with the generic message and that record's exception
    message, no closing report is sent, and the results collected for
    [pre] are never sent. *)
Theorem first_faulty_row_aborts_the_job model pre bad post txtData w e :
  Forall well_formed_row pre → well_formed_text txtData →
  row_fault bad = Some e →
  let σ' := (run_job env model (BatchArray (pre ++ bad :: post)) txtData w).2 in
  (∃ evs, trace σ'
          = started :: evs
            ++ [EvEmit (processingError
                  (lit "An error occurred during backend processing. Check server logs.")
                  (message e))]
          ∧ Forall (λ ev, is_terminal ev = false) evs)
  ∧ final_report (trace σ') = None
  ∧ length (processedResumes (vars σ')) = length pre.
Proof.
  intros Hpre Htxt Hbad. rewrite run_job_rows, for_rows_app.
  destruct (for_rows env model _ txtData 0 pre (job_start w)) as [o1 σ1] eqn:E1.
  apply for_rows_spec in E1 as ((ev1 & Hc1 & Hq1) & Ho1).
  unfold continues in Hc1. simpl in Hc1.
  destruct o1 as [[]|e1]; [|by destruct Ho1].
  destruct Ho1 as (results & HF & Hv).
  cbn [for_rows]. unfold bind.
  destruct (loop_body_fault model (length (pre ++ bad :: post)) txtData
              (0 + length pre) bad e σ1 Hbad)
    as (ev2 & σ2 & -> & Hc2 & Hq2 & Hv2 & _).
  simpl. rewrite Hc2, Hc1, Hv2, Hv. simpl. split_and!.
  - exists (ev1 ++ ev2). split; [by rewrite <-!(assoc_L (++))|].
    apply Forall_app. split.
    + eapply Forall_impl; [exact Hq1|]. by intros ev [? _].
    + eapply Forall_impl; [exact Hq2|]. by intros ev [_ ?].
  - unfold final_report. rewrite app_comm_cons, last_snoc. done.
  - symmetry. by eapply Forall2_length.
Qed.

(** X5.  For a non-empty string link, [extractPdfData] never throws and
    makes exactly one request, to the resolved address.  The parser is
    called, once and on the received bytes, only if that request is
    answered with an ok response whose body can be read; in every other
    case the parser is not called and the result holds no text.  The
    handler's counters are not touched. *)
Theorem extraction_makes_one_request link σ :
  link ≠ [] →
  ∃ c σ' rest,
    extractPdfData env (VStr link) σ = (Normal c, σ')
    ∧ trace σ' = trace σ ++ EvFetch (effectiveResumeLink link) :: rest
    ∧ vars σ' = vars σ
    ∧ match (net_fetch env (effectiveResumeLink link) (outside σ)).1 with
      | FetchResponse true (inr buffer) => rest = [EvPdfParse buffer]
      | _ => rest = [] ∧ c = Content None
      end.
Proof.
  intros Hne. unfold extractPdfData, resolve. simpl.
  rewrite bool_decide_eq_false_2 by done. simpl.
  unfold bind, try_catch, ret, fetch, arrayBuffer, pdfParse, throw. simpl.
  destruct (net_fetch env (effectiveResumeLink link) (outside σ))
    as [[e|[] [e|buffer]] w1]; simpl.
  1,2,4,5: eexists _, _, []; by split_and!.
  destruct (pdf_parse env buffer w1) as [[e|t] w2]; simpl.
  - eexists _, _, _. split; [reflexivity|]. simpl.
    by rewrite <-(assoc_L (++)).
  - destruct (negb (bool_decide (t = [])) && (0 <? length (trim t))%nat);
      simpl; eexists _, _, _; (split; [reflexivity|]); simpl;
      by rewrite <-(assoc_L (++)).
Qed.

End Faults.

(** ** Instances *)

(** A starred rating above the scale. *)
Lemma rating_capture_is_a_natural_number_witness :
  ratingMatch (lit "Numeric rating: *12/10") = Some (Some (lit "12"))
  ∧ ∃ r, parseInt10 (lit "12") = Some r ∧ 0 ≤ r
         ∧ rating_of (lit "Numeric rating: *12/10") = if r <=? 10 then r else 0.
Proof.
  assert (ratingMatch (lit "Numeric rating: *12/10") = Some (Some (lit "12")))
    as Hm by (vm_compute; reflexivity).
  split; [exact Hm|].
  exact (proj2 (proj2 (rating_capture_is_a_natural_number _ _ Hm))).
Defined.

(** A short text is not cut. *)
Lemma truncated_keeps_a_bounded_prefix_witness :
  Z.of_nat (length (lit "Ten years of backend work")) ≤ 8000
  ∧ truncated (lit "Ten years of backend work") = lit "Ten years of backend work".
Proof.
  assert (Z.of_nat (length (lit "Ten years of backend work")) ≤ 8000) as Hl
    by (vm_compute; discriminate).
  split; [exact Hl|].
  exact (proj1 (proj2 (proj2 (truncated_keeps_a_bounded_prefix _))) Hl).
Defined.

(** The response [Rating:8/10 Summary:Strong match]. *)
Lemma formatted_response_is_read_back_witness :
  rating_of (formatted_response 8 (lit "Strong match")) = 8
  ∧ summary_of (formatted_response 8 (lit "Strong match"))
    = Normal (lit "Strong match").
Proof.
  apply (formatted_response_is_read_back 8 (lit "Strong match")); [lia|].
  split_and!; [vm_compute; repeat constructor|vm_compute; discriminate..].
Defined.

(** Three records, the second of which cannot be downloaded. *)
Lemma closing_counts_are_ordered_witness :
  ∃ finalData report,
    final_report
      (trace (run_job second_download_times_out sample_model
                (BatchArray three_candidates) (VStr (lit "Backend engineer"))
                0%nat).2)
    = Some (finalData, report)
    ∧ let v := vars (run_job second_download_times_out sample_model
                       (BatchArray three_candidates)
                       (VStr (lit "Backend engineer")) 0%nat).2 in
      (successfulLLMCalls v ≤ successfulExtractions v ≤ length finalData)%nat.
Proof.
  destruct (job_completes second_download_times_out sample_model three_candidates
              (VStr (lit "Backend engineer")) 0%nat ltac:(by split)
              three_candidates_well_formed) as (finalData & report & Hf).
  exists finalData, report. split; [exact Hf|].
  exact (proj2 (proj2 (closing_counts_are_ordered _ _ _ _ _ _ _ Hf))).
Defined.

(** Three records with a link: three requests. *)
Lemma every_call_is_made_once_witness :
  ∃ finalData report,
    final_report
      (trace (run_job second_download_times_out sample_model
                (BatchArray three_candidates) (VStr (lit "Backend engineer"))
                0%nat).2)
    = Some (finalData, report)
    ∧ count is_fetch
        (trace (run_job second_download_times_out sample_model
                  (BatchArray three_candidates) (VStr (lit "Backend engineer"))
                  0%nat).2)
      = 3%nat
    ∧ count is_generate
        (trace (run_job second_download_times_out sample_model
                  (BatchArray three_candidates) (VStr (lit "Backend engineer"))
                  0%nat).2)
      = count success finalData.
Proof.
  destruct (job_completes second_download_times_out sample_model three_candidates
              (VStr (lit "Backend engineer")) 0%nat ltac:(by split)
              three_candidates_well_formed) as (finalData & report & Hf).
  exists finalData, report. split; [exact Hf|].
  destruct (every_call_is_made_once _ _ _ _ _ _ _ Hf) as (rows & [= <-] & -> & ->).
  split; [vm_compute; reflexivity|reflexivity].
Defined.

(** The events of the job on the three records. *)
Lemma each_record_is_reported_on_witness :
  ∃ finalData report,
    final_report
      (trace (run_job second_download_times_out sample_model
                (BatchArray three_candidates) (VStr (lit "Backend engineer"))
                0%nat).2)
    = Some (finalData, report)
    ∧ count is_emit
        (trace (run_job second_download_times_out sample_model
                  (BatchArray three_candidates) (VStr (lit "Backend engineer"))
                  0%nat).2)
      = (3 + 2 * length finalData + count success finalData)%nat.
Proof.
  destruct (job_completes second_download_times_out sample_model three_candidates
              (VStr (lit "Backend engineer")) 0%nat ltac:(by split)
              three_candidates_well_formed) as (finalData & report & Hf).
  exists finalData, report. split; [exact Hf|].
  exact (each_record_is_reported_on _ _ _ _ _ _ _ Hf).
Defined.

(** A share link in its open form: one request, to the download address. *)
Lemma extraction_makes_one_request_witness :
  ∃ c σ' rest,
    extractPdfData backend_down
      (VStr (lit "https://drive.google.com/open?id=xyz")) (job_start tt)
    = (Normal c, σ')
    ∧ trace σ'
      = [started;
         EvFetch (lit "https://drive.google.com/uc?export=download&id=xyz")]
        ++ rest.
Proof.
  destruct (extraction_makes_one_request backend_down
              (lit "https://drive.google.com/open?id=xyz") (job_start tt))
    as (c & σ' & rest & Hrun & Htr & _).
  { vm_compute. discriminate. }
  exists c, σ', rest. split; [exact Hrun|]. rewrite Htr.
  assert (effectiveResumeLink (lit "https://drive.google.com/open?id=xyz")
          = lit "https://drive.google.com/uc?export=download&id=xyz") as ->
    by (vm_compute; reflexivity).
  reflexivity.
Defined.

(** A [null] between two records: the first result is never sent. *)
Lemma first_faulty_row_aborts_the_job_witness :
  final_report
    (trace (run_job backend_down sample_model (BatchArray one_bad_record)
              (VStr (lit "Backend engineer")) tt).2)
  = None
  ∧ length (processedResumes
              (vars (run_job backend_down sample_model (BatchArray one_bad_record)
                       (VStr (lit "Backend engineer")) tt).2))
    = 1%nat.
Proof.
  refine (proj2 (first_faulty_row_aborts_the_job backend_down sample_model
            [candidate "ada@example.org" "https://example.org/ada.pdf"] RowNull
            [candidate "eve@example.org" "https://drive.google.com/open?id=xyz"]
            (VStr (lit "Backend engineer")) tt (cannot_read "null" "email")
            _ _ _)).
  - repeat constructor. eexists. split; [reflexivity|]. right. eexists.
    vm_compute. reflexivity.
  - by split.
  - reflexivity.
Defined.

(** The error event of that job. *)
Lemma only_input_errors_reach_the_client_witness :
  EvEmit (processingError
            (lit "An error occurred during backend processing. Check server logs.")
            (lit "Cannot read properties of null (reading 'email')"))
    ∈ trace (run_job backend_down sample_model (BatchArray one_bad_record)
               (VStr (lit "Backend engineer")) tt).2
  ∧ lit "Cannot read properties of null (reading 'email')" ∈ error_messages
  ∧ ∃ row e, row ∈ one_bad_record ∧ row_fault row = Some e
             ∧ lit "Cannot read properties of null (reading 'email')" = message e.
Proof.
  assert (EvEmit (processingError
            (lit "An error occurred during backend processing. Check server logs.")
            (lit "Cannot read properties of null (reading 'email')"))
    ∈ trace (run_job backend_down sample_model (BatchArray one_bad_record)
               (VStr (lit "Backend engineer")) tt).2) as Hin.
  { apply list_elem_of_In. vm_compute.
    repeat first [left; reflexivity | right]. }
  split; [exact Hin|].
  exact (proj2 (only_input_errors_reach_the_client _ _ _ _ _ _ _ Hin)).
Defined.


(** A record without a link, scored against no job description. *)
Lemma job_without_description_scores_nothing_witness :
  ∃ finalData,
    final_report
      (trace (run_job answering sample_model (BatchArray no_link_record)
                VUndefined tt).2)
    = Some (finalData, closing_report 0 0)
    ∧ count success finalData = 0%nat.
Proof.
  destruct (job_without_description_scores_nothing answering sample_model
              (BatchArray no_link_record) VUndefined tt) as [_ H]; [by left|].
  assert (∃ fd rep, final_report
      (trace (run_job answering sample_model (BatchArray no_link_record)
                VUndefined tt).2) = Some (fd, rep)) as (fd & rep & Hf).
  { vm_compute. by eexists _, _. }
  destruct (H fd rep ltac:(done) Hf) as [Hc ->].
  exists fd. split; [exact Hf|exact Hc].
Defined.
